(** * Treasury outputs, database lifecycle and node health of the HORNET node

    A shallow embedding of
    - [pkg/model/utxo/treasury_output.go]  (module [utxo]),
    - [core/database/core.go]              (module [database]),
    - the node-health predicate            (module [tangle]),
    together with the contracts of the libraries these files are written
    against (modules [marshalutil] and [kvstore]). *)

From Stdlib Require Import ZArith Strings.Byte String Lia.
From stdpp Require Import gmap list sorting strings.

Local Open Scope Z_scope.

(** ** Go values shared by all packages *)

Module Go.

(** Go [error] values that occur in the embedded code.  Sentinels are
    nullary constructors, [Errorf_w s m] is [fmt.Errorf("%w: m", s)]. *)
Inductive error : Type :=
| ErrReadCapacity (readEnd size : nat)
    (* marshalutil: tried to read past the end of the input *)
| ErrStore (msg : string)
    (* a failure reported by the key-value backend *)
| ErrInvalidTreasuryState
| ErrNothingToCleanUp
| Errorf_w (sentinel : error) (msg : string).

#[global] Instance error_eq_dec : EqDecision error.
Proof. solve_decision. Defined.

(** [[]byte] *)
Abbreviation bytes := (list byte).

#[global] Instance byte_eq_dec : EqDecision byte := Byte.byte_eq_dec.

#[global] Instance byte_countable : Countable byte :=
  inj_countable Byte.to_N Byte.of_N Byte.of_to_N.

(** [byte(v)] for an integer [v]: the low eight bits. *)
Definition byte_of_Z (v : Z) : byte :=
  default x00 (Byte.of_N (Z.to_N (Z.land v 255))).

(** [uint64(b)] for a byte [b]. *)
Definition Z_of_byte (b : byte) : Z := Z.of_N (Byte.to_N b).

(** The builtin [copy(dst, src)]: overwrites the first
    [min(len(dst), len(src))] elements of [dst]. *)
Definition copy {A} (dst src : list A) : list A :=
  let n := Nat.min (length dst) (length src) in
  take n src ++ drop n dst.

End Go.

Import Go.

(** ** hive.go/marshalutil *)

Module marshalutil.

(** Modelled from the spec: the marshalling helper of hive.go, which is
    not among the sources.  A [MarshalUtil] is a byte buffer with a read
    and a write cursor; writes overwrite the buffer at the write cursor
    and grow it when needed, reads check the remaining length first
    ("decoding must validate structural length before interpreting
    bytes"), amounts are fixed-width 8-byte integers in one byte order
    (little endian), byte strings are copied verbatim. *)
Record MarshalUtil : Type := mk {
  buf : bytes;
  readOffset : nat;
  writeOffset : nat
}.

(** [marshalutil.New(n)] for an [int]: a zeroed buffer of [n] bytes. *)
Definition NewSize (n : nat) : MarshalUtil :=
  {| buf := replicate n x00; readOffset := 0; writeOffset := 0 |}.

(** [marshalutil.New(b)] for a [[]byte]: a reader over [b]. *)
Definition NewBytes (b : bytes) : MarshalUtil :=
  {| buf := b; readOffset := 0; writeOffset := 0 |}.

Definition Bytes (u : MarshalUtil) : bytes := buf u.

Definition WriteBytes (data : bytes) (u : MarshalUtil) : MarshalUtil :=
  let wend := (writeOffset u + length data)%nat in
  {| buf := take (writeOffset u) (buf u) ++ data ++ drop wend (buf u);
     readOffset := readOffset u;
     writeOffset := wend |}.

Definition WriteByte (b : byte) (u : MarshalUtil) : MarshalUtil :=
  WriteBytes [b] u.

Definition WriteBool (b : bool) (u : MarshalUtil) : MarshalUtil :=
  WriteBytes [if b then x01 else x00] u.

(** [binary.LittleEndian.PutUint64] *)
Definition PutUint64 (v : Z) : bytes :=
  [ byte_of_Z v;
    byte_of_Z (Z.shiftr v 8);
    byte_of_Z (Z.shiftr v 16);
    byte_of_Z (Z.shiftr v 24);
    byte_of_Z (Z.shiftr v 32);
    byte_of_Z (Z.shiftr v 40);
    byte_of_Z (Z.shiftr v 48);
    byte_of_Z (Z.shiftr v 56) ].

Definition WriteUint64 (v : Z) (u : MarshalUtil) : MarshalUtil :=
  WriteBytes (PutUint64 v) u.

(** [checkReadCapacity] followed by the slice of the bytes read and the
    cursor move. *)
Definition ReadBytes (n : nat) (u : MarshalUtil)
  : (bytes + error) * MarshalUtil :=
  let rend := (readOffset u + n)%nat in
  if decide (rend ≤ length (buf u))%nat
  then (inl (take n (drop (readOffset u) (buf u))),
        {| buf := buf u; readOffset := rend; writeOffset := writeOffset u |})
  else (inr (ErrReadCapacity rend (length (buf u))), u).

Definition ReadByte (u : MarshalUtil) : (byte + error) * MarshalUtil :=
  match ReadBytes 1 u with
  | (inl bs, u') => (inl (default x00 (head bs)), u')
  | (inr e, u') => (inr e, u')
  end.

Definition ReadBool (u : MarshalUtil) : (bool + error) * MarshalUtil :=
  match ReadByte u with
  | (inl b, u') => (inl (bool_decide (b = x01)), u')
  | (inr e, u') => (inr e, u')
  end.

(** [binary.LittleEndian.Uint64] *)
Definition Uint64 (b : bytes) : Z :=
  let at_ (i : nat) := Z_of_byte (default x00 (b !! i)) in
  Z.lor (at_ 0%nat)
 (Z.lor (Z.shiftl (at_ 1%nat) 8)
 (Z.lor (Z.shiftl (at_ 2%nat) 16)
 (Z.lor (Z.shiftl (at_ 3%nat) 24)
 (Z.lor (Z.shiftl (at_ 4%nat) 32)
 (Z.lor (Z.shiftl (at_ 5%nat) 40)
 (Z.lor (Z.shiftl (at_ 6%nat) 48)
        (Z.shiftl (at_ 7%nat) 56))))))).

Definition ReadUint64 (u : MarshalUtil) : (Z + error) * MarshalUtil :=
  match ReadBytes 8 u with
  | (inl bs, u') => (inl (Uint64 bs), u')
  | (inr e, u') => (inr e, u')
  end.

End marshalutil.

(** ** hive.go/kvstore *)

Module kvstore.

Abbreviation Key := (list byte).
Abbreviation Value := (list byte).

(** Modelled from the spec: the key-value store contract, whose backends
    are not among the sources.  A store is a finite map from byte keys to
    byte values; [fault] is the message of a failure the backend reports
    for every operation (for instance a closed database), propagated
    unchanged by the callers. *)
Record KVStore : Type := mk {
  entries : gmap (list byte) (list byte);
  fault : option string
}.

(** Store-native key order: byte-wise lexicographic. *)
Fixpoint key_leb (a b : Key) : bool :=
  match a, b with
  | [], _ => true
  | _ :: _, [] => false
  | x :: a', y :: b' =>
      if decide (x = y) then key_leb a' b'
      else bool_decide (Byte.to_N x < Byte.to_N y)%N
  end.

Definition entry_le (e1 e2 : Key * Value) : Prop := key_leb e1.1 e2.1 = true.

#[global] Instance entry_le_dec e1 e2 : Decision (entry_le e1 e2).
Proof. unfold entry_le. apply _. Defined.

(** All records of the store, in key order. *)
Definition ordered (s : KVStore) : list (Key * Value) :=
  merge_sort entry_le (map_to_list (entries s)).

(** The records whose key starts with [prefix], in key order. *)
Definition partition (prefix : Key) (s : KVStore) : list (Key * Value) :=
  filter (λ e, prefix `prefix_of` e.1) (ordered s).

(** The visiting loop of [Iterate]: the consumer is called on each record
    until it returns [false] or the records are exhausted.  Whatever the
    consumer closure captures is threaded through as [St]. *)
Fixpoint visit {St} (consumerFunc : Key → Value → St → bool * St)
    (l : list (Key * Value)) (st : St) : St :=
  match l with
  | [] => st
  | (k, v) :: l' =>
      let '(continue, st') := consumerFunc k v st in
      if continue then visit consumerFunc l' st' else st'
  end.

(** [Iterate(prefix, consumerFunc)] *)
Definition Iterate {St} (s : KVStore) (prefix : Key)
    (consumerFunc : Key → Value → St → bool * St) (st : St)
  : option error * St :=
  match fault s with
  | Some msg => (Some (ErrStore msg), st)
  | None => (None, visit consumerFunc (partition prefix s) st)
  end.

Definition Get (s : KVStore) (k : Key) : option Value * option error :=
  match fault s with
  | Some msg => (None, Some (ErrStore msg))
  | None =>
      match entries s !! k with
      | Some v => (Some v, None)
      | None => (None, Some (ErrStore "key not found"))
      end
  end.

Definition Set_ (k : Key) (v : Value) (s : KVStore) : option error * KVStore :=
  match fault s with
  | Some msg => (Some (ErrStore msg), s)
  | None => (None, {| entries := <[k := v]> (entries s); fault := None |})
  end.

Definition Delete (k : Key) (s : KVStore) : option error * KVStore :=
  match fault s with
  | Some msg => (Some (ErrStore msg), s)
  | None => (None, {| entries := delete k (entries s); fault := None |})
  end.

(** The interface [BatchedMutations]: [Set] and [Delete] queue a
    mutation and may fail. *)
Class BatchedMutations (B : Type) : Type := {
  batch_Set : Key → Value → B → option error * B;
  batch_Delete : Key → B → option error * B
}.

(** A queued mutation. *)
Inductive Mutation : Type :=
| MutSet (k : Key) (v : Value)
| MutDelete (k : Key).

(** The in-memory batch: mutations are appended to a queue and take
    effect together, in queue order, at [Commit]. *)
#[global] Instance queue_batch : BatchedMutations (list Mutation) := {
  batch_Set k v q := (None, q ++ [MutSet k v]);
  batch_Delete k q := (None, q ++ [MutDelete k])
}.

Definition apply_mutation (m : gmap (list byte) (list byte)) (mu : Mutation)
  : gmap (list byte) (list byte) :=
  match mu with
  | MutSet k v => <[k := v]> m
  | MutDelete k => delete k m
  end.

Definition Commit (q : list Mutation) (s : KVStore) : option error * KVStore :=
  match fault s with
  | Some msg => (Some (ErrStore msg), s)
  | None => (None, {| entries := foldl apply_mutation (entries s) q;
                      fault := None |})
  end.

End kvstore.

(** ** pkg/model/utxo/treasury_output.go *)

Module utxo.
Import marshalutil kvstore.

(** A prefix which denotes a spent treasury output. *)
Definition TreasuryOutputSpentPrefix : byte := x01.
(** A prefix which denotes an unspent treasury output. *)
Definition TreasuryOutputUnspentPrefix : byte := x00.

(** [iotago.MilestoneIDLength] *)
Definition MilestoneIDLength : nat := 32.

(** TreasuryOutput represents the output of a treasury transaction.
    [MilestoneID] is a [[32]byte] array, [Amount] a [uint64]. *)
Record TreasuryOutput : Type := mkTreasuryOutput {
  MilestoneID : bytes;
  Amount : Z;
  Spent : bool
}.

#[global] Instance TreasuryOutput_eq_dec : EqDecision TreasuryOutput.
Proof. solve_decision. Defined.

(** The values the Go types allow: a 32-byte array and a [uint64]. *)
Definition valid (t : TreasuryOutput) : Prop :=
  length (MilestoneID t) = MilestoneIDLength ∧ 0 ≤ Amount t < 2 ^ 64.

(** [TreasuryOutput{}] *)
Definition zero : TreasuryOutput :=
  {| MilestoneID := replicate MilestoneIDLength x00; Amount := 0; Spent := false |}.

Definition set_MilestoneID (m : bytes) (t : TreasuryOutput) : TreasuryOutput :=
  {| MilestoneID := m; Amount := Amount t; Spent := Spent t |}.
Definition set_Amount (a : Z) (t : TreasuryOutput) : TreasuryOutput :=
  {| MilestoneID := MilestoneID t; Amount := a; Spent := Spent t |}.
Definition set_Spent (b : bool) (t : TreasuryOutput) : TreasuryOutput :=
  {| MilestoneID := MilestoneID t; Amount := Amount t; Spent := b |}.

Section WithKeyPrefix.

(** The namespace byte of treasury outputs; it is declared with the
    other key prefixes of the package, outside this file. *)
Variable UTXOStoreKeyPrefixTreasuryOutput : byte.

Definition kvStorableKey (t : TreasuryOutput) : bytes :=
  Bytes
    (WriteBytes (MilestoneID t)
      (WriteBool (Spent t)
        (WriteByte UTXOStoreKeyPrefixTreasuryOutput
          (NewSize 34)))).

Definition kvStorableValue (t : TreasuryOutput) : bytes :=
  Bytes (WriteUint64 (Amount t) (NewSize 8)).

(** [t.kvStorableLoad(_, key, value)]: the receiver after the call and
    the error returned. *)
Definition kvStorableLoad (t : TreasuryOutput) (key value : bytes)
  : TreasuryOutput * option error :=
  let keyExt := NewBytes key in
  (* skip prefix *)
  match ReadByte keyExt with
  | (inr err, _) => (t, Some err)
  | (inl _, keyExt) =>
  match ReadBool keyExt with
  | (inr err, _) => (t, Some err)
  | (inl spent, keyExt) =>
  match ReadBytes MilestoneIDLength keyExt with
  | (inr err, _) => (t, Some err)
  | (inl milestoneID, _) =>
      let t := set_MilestoneID (copy (MilestoneID t) milestoneID) t in
      let val := NewBytes value in
      match ReadUint64 val with
      | (inr err, _) => (set_Amount 0 t, Some err)
      | (inl amount, _) => (set_Spent spent (set_Amount amount t), None)
      end
  end end end.

(** stores the given treasury output. *)
Definition storeTreasuryOutput `{BatchedMutations B}
    (output : TreasuryOutput) (mutations : B) : option error * B :=
  batch_Set (kvStorableKey output) (kvStorableValue output) mutations.

(** deletes the given treasury output. *)
Definition deleteTreasuryOutput `{BatchedMutations B}
    (output : TreasuryOutput) (mutations : B) : option error * B :=
  batch_Delete (kvStorableKey output) mutations.

(** marks the given treasury output as spent.  The first component of
    the result is the record behind the pointer [output] when the call
    returns. *)
Definition markTreasuryOutputAsSpent `{BatchedMutations B}
    (output : TreasuryOutput) (mutations : B)
  : TreasuryOutput * (option error * B) :=
  let outputCopy := output in
  let outputCopy := set_Spent false outputCopy in
  match batch_Delete (kvStorableKey outputCopy) mutations with
  | (Some err, mutations) => (output, (Some err, mutations))
  | (None, mutations) =>
      let outputCopy := set_Spent true outputCopy in
      (output,
       batch_Set (kvStorableKey outputCopy) (kvStorableValue outputCopy)
         mutations)
  end.

(** marks the given treasury output as unspent. *)
Definition markTreasuryOutputAsUnspent `{BatchedMutations B}
    (output : TreasuryOutput) (mutations : B)
  : TreasuryOutput * (option error * B) :=
  let outputCopy := output in
  let outputCopy := set_Spent true outputCopy in
  match batch_Delete (kvStorableKey outputCopy) mutations with
  | (Some err, mutations) => (output, (Some err, mutations))
  | (None, mutations) =>
      let outputCopy := set_Spent false outputCopy in
      (output,
       batch_Set (kvStorableKey outputCopy) (kvStorableValue outputCopy)
         mutations)
  end.

(** The part of [Manager] these functions use; the type is declared
    elsewhere in the package.  The ledger read/write lock guards
    concurrent access and has no effect on the result of a single call; it
    is left out. *)
Record Manager : Type := mkManager {
  utxoStorage : KVStore
}.

Definition readSpentTreasuryOutputWithoutLocking (u : Manager) (msHash : bytes)
  : option TreasuryOutput * option error :=
  let key := [UTXOStoreKeyPrefixTreasuryOutput; TreasuryOutputSpentPrefix] ++ msHash in
  match Get (utxoStorage u) key with
  | (_, Some err) => (None, Some err)
  | (val, None) =>
      match kvStorableLoad zero key (default [] val) with
      | (_, Some err) => (None, Some err)
      | (to, None) => (Some to, None)
      end
  end.

Definition readUnspentTreasuryOutputWithoutLocking (u : Manager) (msHash : bytes)
  : option TreasuryOutput * option error :=
  let key := [UTXOStoreKeyPrefixTreasuryOutput; TreasuryOutputUnspentPrefix] ++ msHash in
  match Get (utxoStorage u) key with
  | (_, Some err) => (None, Some err)
  | (val, None) =>
      match kvStorableLoad zero key (default [] val) with
      | (_, Some err) => (None, Some err)
      | (to, None) => (Some to, None)
      end
  end.

(** AddTreasuryOutput adds the given treasury output to the database. *)
Definition AddTreasuryOutput (to : TreasuryOutput) (u : Manager)
  : option error * Manager :=
  let '(err, s) := Set_ (kvStorableKey to) (kvStorableValue to) (utxoStorage u) in
  (err, {| utxoStorage := s |}).

(** DeleteTreasuryOutput deletes the given treasury output from the database. *)
Definition DeleteTreasuryOutput (to : TreasuryOutput) (u : Manager)
  : option error * Manager :=
  let '(err, s) := Delete (kvStorableKey to) (utxoStorage u) in
  (err, {| utxoStorage := s |}).

(** The variables captured by the closure of [UnspentTreasuryOutput].
    The counter [i] is a Go [int]; it counts visited records, of which
    a store holds far fewer than [2^63], so it is kept unbounded. *)
Record unspentScan : Type := mkUnspentScan {
  us_i : Z;
  us_innerErr : option error;
  us_unspentTreasuryOutput : option TreasuryOutput
}.

Definition unspentCallback (key : Key) (value : Value) (st : unspentScan)
  : bool * unspentScan :=
  let i := us_i st + 1 in
  match kvStorableLoad zero key value with
  | (to, Some err) =>
      (false, {| us_i := i; us_innerErr := Some err;
                 us_unspentTreasuryOutput := Some to |})
  | (to, None) =>
      (true, {| us_i := i; us_innerErr := us_innerErr st;
                us_unspentTreasuryOutput := Some to |})
  end.

Definition errMoreThanOne : error :=
  Errorf_w ErrInvalidTreasuryState "more than one unspent treasury output exists".
Definition errNoTreasuryOutput : error :=
  Errorf_w ErrInvalidTreasuryState "no treasury output exists".

(** Returns the unspent treasury output. *)
Definition UnspentTreasuryOutput (u : Manager)
  : option TreasuryOutput * option error :=
  let st0 := {| us_i := 0; us_innerErr := None;
                us_unspentTreasuryOutput := None |} in
  match Iterate (utxoStorage u)
          [UTXOStoreKeyPrefixTreasuryOutput; TreasuryOutputUnspentPrefix]
          unspentCallback st0 with
  | (Some err, _) => (None, Some err)
  | (None, st) =>
      match us_innerErr st with
      | Some innerErr => (None, Some innerErr)
      | None =>
          if decide (us_i st > 1) then (None, Some errMoreThanOne)
          else if decide (us_i st = 0) then (None, Some errNoTreasuryOutput)
          else (us_unspentTreasuryOutput st, None)
      end
  end.

(** [type TreasuryOutputConsumer func(output *TreasuryOutput) bool];
    [C] is what the consumer closure captures and may update. *)
Definition TreasuryOutputConsumer (C : Type) : Type :=
  TreasuryOutput → C → bool * C.

(** Modelled from the spec: the options that [iterateOptions(options)]
    builds, declared elsewhere in the package: [read_lock_ledger] and
    [max_result_count]. *)
Record IterateOptions : Type := mkIterateOptions {
  readLockLedger : bool;
  maxResultCount : Z
}.

(** The variables captured by the closures of [ForEachTreasuryOutput]
    and [ForEachSpentTreasuryOutput], and the captures of the
    consumer. *)
Record forEachScan (C : Type) : Type := mkForEachScan {
  fe_i : Z;
  fe_innerErr : option error;
  fe_consumer : C
}.
Arguments mkForEachScan {C} _ _ _.
Arguments fe_i {C} _.
Arguments fe_innerErr {C} _.
Arguments fe_consumer {C} _.

(** The closure handed to [Iterate]; its text is the same in both
    functions. *)
Definition forEachCallback {C} (opt : IterateOptions)
    (consumer : TreasuryOutputConsumer C)
    (key : Key) (value : Value) (st : forEachScan C)
  : bool * forEachScan C :=
  if bool_decide (maxResultCount opt > 0)%Z && bool_decide (fe_i st >= maxResultCount opt)%Z
  then (false, st)
  else
    let i := fe_i st + 1 in
    match kvStorableLoad zero key value with
    | (_, Some err) =>
        (false, {| fe_i := i; fe_innerErr := Some err;
                   fe_consumer := fe_consumer st |})
    | (output, None) =>
        let '(continue, c) := consumer output (fe_consumer st) in
        (continue, {| fe_i := i; fe_innerErr := fe_innerErr st;
                      fe_consumer := c |})
    end.

Definition ForEachTreasuryOutput {C} (consumer : TreasuryOutputConsumer C)
    (opt : IterateOptions) (u : Manager) (c : C) : option error * C :=
  let st0 := {| fe_i := 0; fe_innerErr := None; fe_consumer := c |} in
  match Iterate (utxoStorage u) [UTXOStoreKeyPrefixTreasuryOutput]
          (forEachCallback opt consumer) st0 with
  | (Some err, st) => (Some err, fe_consumer st)
  | (None, st) => (fe_innerErr st, fe_consumer st)
  end.

Definition ForEachSpentTreasuryOutput {C} (consumer : TreasuryOutputConsumer C)
    (opt : IterateOptions) (u : Manager) (c : C) : option error * C :=
  let st0 := {| fe_i := 0; fe_innerErr := None; fe_consumer := c |} in
  match Iterate (utxoStorage u)
          [UTXOStoreKeyPrefixTreasuryOutput; TreasuryOutputSpentPrefix]
          (forEachCallback opt consumer) st0 with
  | (Some err, st) => (Some err, fe_consumer st)
  | (None, st) => (fe_innerErr st, fe_consumer st)
  end.

End WithKeyPrefix.

Arguments mkForEachScan {C} _ _ _.
Arguments fe_i {C} _.
Arguments fe_innerErr {C} _.
Arguments fe_consumer {C} _.

End utxo.

(** ** The standard package [time] *)

Module gotime.

(** A [time.Time] as the number of nanoseconds since the zero [Time];
    a [time.Duration] is an [int64] count of nanoseconds. *)
Definition Time : Type := Z.
Definition Duration : Type := Z.

Definition zeroTime : Time := 0.

Definition minDuration : Duration := - 2 ^ 63.
Definition maxDuration : Duration := 2 ^ 63 - 1.

Definition Nanosecond : Duration := 1.
Definition Millisecond : Duration := 1000000 * Nanosecond.
Definition Second : Duration := 1000 * Millisecond.
Definition Minute : Duration := 60 * Second.

(** [t.Sub(u)]: the difference, clamped to the range of [Duration]. *)
Definition Sub (t u : Time) : Duration :=
  let d := t - u in
  if decide (d < minDuration) then minDuration
  else if decide (maxDuration < d) then maxDuration
  else d.

(** [time.Since(t)] when the clock reads [now]. *)
Definition Since (now t : Time) : Duration := Sub now t.

(** [d.Truncate(m)]: rounds toward zero to a multiple of [m]. *)
Definition Truncate (d m : Duration) : Duration :=
  if decide (m <= 0) then d else d - Z.rem d m.

End gotime.

(** ** core/database/core.go *)

Module database.
Import gotime.

(** Modelled from the spec: the payload of the [DatabaseCleanup] event,
    declared elsewhere in the package, "carrying start and optional end
    timestamp". *)
Record DatabaseCleanup : Type := mkDatabaseCleanup {
  Start : Time;
  End_ : Time
}.

Inductive LogLevel : Type := LevelInfo | LevelWarn | LevelPanic.

Inductive LogArg : Type :=
| ArgError (err : error)
| ArgDuration (d : Duration)
| ArgString (s : string).

(** What the plugin does to its surroundings, in program order. *)
Inductive Event : Type :=
| EvBackgroundWorker (name : string)
| EvMarkDatabaseHealthy
| EvFlush
| EvClose
| EvLock
| EvUnlock
| EvCleanupDatabases
| EvTrigger (ev : DatabaseCleanup)
| EvLog (level : LogLevel) (format : string) (args : list LogArg).

#[global] Instance DatabaseCleanup_eq_dec : EqDecision DatabaseCleanup.
Proof. solve_decision. Defined.
#[global] Instance LogLevel_eq_dec : EqDecision LogLevel.
Proof. solve_decision. Defined.
#[global] Instance LogArg_eq_dec : EqDecision LogArg.
Proof. solve_decision. Defined.
#[global] Instance Event_eq_dec : EqDecision Event.
Proof. solve_decision. Defined.

(** The injected dependencies ([deps.Store], [deps.Storage]) as far as
    the plugin observes them, the clock, and the trace of effects. *)
Record World : Type := mkWorld {
  isCorrectDatabaseVersion : bool;
  updateDatabaseVersion : bool;
  flushResult : option error;
  closeResult : option error;
  databaseSupportsCleanup : bool;
  cleanupResult : option error;
  cleanupDuration : Duration;
  clock : Time;
  trace : list Event
}.

Definition emit (e : Event) (w : World) : World :=
  {| isCorrectDatabaseVersion := isCorrectDatabaseVersion w;
     updateDatabaseVersion := updateDatabaseVersion w;
     flushResult := flushResult w;
     closeResult := closeResult w;
     databaseSupportsCleanup := databaseSupportsCleanup w;
     cleanupResult := cleanupResult w;
     cleanupDuration := cleanupDuration w;
     clock := clock w;
     trace := trace w ++ [e] |}.

Definition advance (d : Duration) (w : World) : World :=
  {| isCorrectDatabaseVersion := isCorrectDatabaseVersion w;
     updateDatabaseVersion := updateDatabaseVersion w;
     flushResult := flushResult w;
     closeResult := closeResult w;
     databaseSupportsCleanup := databaseSupportsCleanup w;
     cleanupResult := cleanupResult w;
     cleanupDuration := cleanupDuration w;
     clock := clock w + d;
     trace := trace w |}.

(** A call either returns or panics (a process-level failure). *)
Inductive outcome (A : Type) : Type :=
| Returned (a : A)
| Panicked (msg : string).
Arguments Returned {A} _.
Arguments Panicked {A} _.

Definition M (A : Type) : Type := World → outcome A * World.

#[global] Instance M_ret : MRet M := λ A a w, (Returned a, w).
#[global] Instance M_bind : MBind M := λ A B f m w,
  match m w with
  | (Returned a, w') => f a w'
  | (Panicked msg, w') => (Panicked msg, w')
  end.

Definition act (e : Event) : M unit := λ w, (Returned tt, emit e w).
Definition ask {A} (f : World → A) : M A := λ w, (Returned (f w), w).

Definition logInfo (msg : string) : M unit := act (EvLog LevelInfo msg []).
Definition logInfof (format : string) (args : list LogArg) : M unit :=
  act (EvLog LevelInfo format args).
Definition logWarnf (format : string) (args : list LogArg) : M unit :=
  act (EvLog LevelWarn format args).
Definition logPanic (msg : string) : M unit := λ w,
  (Panicked msg, emit (EvLog LevelPanic msg []) w).

Definition Now : M Time := ask clock.
Definition Flush : M (option error) := act EvFlush ;; ask flushResult.
Definition Close : M (option error) := act EvClose ;; ask closeResult.
Definition MarkDatabaseHealthy : M unit := act EvMarkDatabaseHealthy.
Definition CleanupDatabases : M (option error) :=
  act EvCleanupDatabases ;;
  d ← ask cleanupDuration;
  (λ w, (Returned tt, advance d w)) ;;
  ask cleanupResult.
Definition Trigger (ev : DatabaseCleanup) : M unit := act (EvTrigger ev).

Definition closeDatabases : M (option error) :=
  err ← Flush;
  match err with
  | Some err => mret (Some err)
  | None =>
      err ← Close;
      match err with
      | Some err => mret (Some err)
      | None => mret None
      end
  end.

(** The body of the "Close database" background worker, from the
    moment the shutdown signal is received.  The worker function has no
    result, and the value of [closeDatabases()] is not bound. *)
Definition closeDatabaseWorker : M unit :=
  MarkDatabaseHealthy ;;
  logInfo "Syncing databases to disk..." ;;
  _ ← closeDatabases;
  logInfo "Syncing databases to disk... done".

Definition configure : M unit :=
  ok ← ask isCorrectDatabaseVersion;
  (if negb ok return M unit then
     updated ← ask updateDatabaseVersion;
     if negb updated return M unit then
       logPanic "HORNET database version mismatch. The database scheme was updated. Please delete the database folder and start with a new snapshot."
     else mret tt
   else mret tt) ;;
  act (EvBackgroundWorker "Close database").

Definition RunGarbageCollection : M unit :=
  supported ← ask databaseSupportsCleanup;
  if negb supported return M unit then mret tt
  else
    act EvLock ;;
    logInfo "running full database garbage collection. This can take a while..." ;;
    start ← Now;
    Trigger {| Start := start; End_ := zeroTime |} ;;
    err ← CleanupDatabases;
    end_ ← Now;
    Trigger {| Start := start; End_ := end_ |} ;;
    match err with
    | Some err =>
        if decide (err ≠ ErrNothingToCleanUp) then
          logWarnf "full database garbage collection failed with error: %s. took: %v"
            [ArgError err; ArgDuration (Truncate (Sub end_ start) Millisecond)] ;;
          act EvUnlock
        else
          logInfof "full database garbage collection finished. took %v"
            [ArgDuration (Truncate (Sub end_ start) Millisecond)] ;;
          act EvUnlock
    | None =>
        logInfof "full database garbage collection finished. took %v"
          [ArgDuration (Truncate (Sub end_ start) Millisecond)] ;;
        act EvUnlock
    end.

(** The [DatabaseCleanup] events of a trace, in order. *)
Definition cleanupEvents (tr : list Event) : list DatabaseCleanup :=
  omap (λ e, match e with EvTrigger ev => Some ev | _ => None end) tr.

(** The log lines of a trace at a given level. *)
Definition logsAt (lvl : LogLevel) (tr : list Event)
  : list (string * list LogArg) :=
  omap (λ e, match e with
             | EvLog l format args =>
                 if decide (l = lvl) then Some (format, args) else None
             | _ => None
             end) tr.

(** What a run of the collection appends to the trace when the backend
    supports cleanup. *)
Definition collectionTrace (w : World) : list Event :=
  let start := clock w in
  let end_ := clock w + cleanupDuration w in
  let took := ArgDuration (Truncate (Sub end_ start) Millisecond) in
  [ EvLock;
    EvLog LevelInfo "running full database garbage collection. This can take a while..." [];
    EvTrigger {| Start := start; End_ := zeroTime |};
    EvCleanupDatabases;
    EvTrigger {| Start := start; End_ := end_ |};
    match cleanupResult w with
    | Some err =>
        if decide (err ≠ ErrNothingToCleanUp)
        then EvLog LevelWarn
               "full database garbage collection failed with error: %s. took: %v"
               [ArgError err; took]
        else EvLog LevelInfo "full database garbage collection finished. took %v" [took]
    | None => EvLog LevelInfo "full database garbage collection finished. took %v" [took]
    end;
    EvUnlock ].

(** A world for the examples: the given answers of the store, a backend
    with or without cleanup whose cleanup fails, an empty trace. *)
Definition sampleWorld (flush close : option error) (cleanup : bool) : World :=
  {| isCorrectDatabaseVersion := true;
     updateDatabaseVersion := true;
     flushResult := flush;
     closeResult := close;
     databaseSupportsCleanup := cleanup;
     cleanupResult := Some (ErrStore "compaction failed");
     cleanupDuration := 1500000;
     clock := 100;
     trace := [] |}.

End database.

(** ** The node-health predicate (package [tangle]) *)

Module tangle.
Import gotime.

Definition maxAllowedMilestoneAge : Duration := Minute * 5.

(** [p2p.PeerRelation] *)
Inductive PeerRelation : Type :=
| PeerRelationKnown
| PeerRelationUnknown
| PeerRelationAutopeered.

Record Milestone : Type := mkMilestone {
  Index : Z;
  Timestamp : Time
}.

(** What [IsNodeHealthy] reads: the answers of [deps.Tangle] and
    [deps.Manager] ([ConnectedCount] is a number of peers), and the
    clock. *)
Record Deps : Type := mkDeps {
  IsNodeSyncedWithThreshold : bool;
  ConnectedCount : PeerRelation → nat;
  GetLatestMilestoneIndex : Z;
  GetCachedMilestoneOrNil : Z → option Milestone;
  now : Time
}.

(** IsNodeHealthy returns whether the node is synced, has active
    neighbors and its latest milestone is not too old. *)
Definition IsNodeHealthy (deps : Deps) : bool :=
  if negb (IsNodeSyncedWithThreshold deps) then false
  else if decide (ConnectedCount deps PeerRelationKnown = 0%nat) then false
  else
    (* latest milestone timestamp *)
    let lmi := GetLatestMilestoneIndex deps in
    match GetCachedMilestoneOrNil deps lmi with
    | None => false
    | Some cachedLatestMilestone =>
        (* the deferred Release only returns the cached object *)
        (* check whether the milestone is older than 5 minutes *)
        let timeMs := Timestamp cachedLatestMilestone in
        bool_decide (Since (now deps) timeMs < maxAllowedMilestoneAge)
    end.

End tangle.

(** ** Vocabulary of the statements *)

Module obs.
Import kvstore utxo.

(** What the iteration callbacks do with a visited record: load it into
    a fresh [TreasuryOutput]. *)
Definition decode (e : Key * Value) : TreasuryOutput * option error :=
  kvStorableLoad zero e.1 e.2.

Definition decodes (e : Key * Value) : Prop := (decode e).2 = None.

#[global] Instance decodes_dec e : Decision (decodes e).
Proof. unfold decodes. apply _. Defined.

Definition decoded (l : list (Key * Value)) : list TreasuryOutput :=
  (λ e, (decode e).1) <$> l.

(** Handing outputs to a consumer one after the other until it answers
    [false]: whether it still wants more, and what it has captured. *)
Fixpoint feed {C} (consumer : TreasuryOutputConsumer C)
    (outs : list TreasuryOutput) (c : C) : bool * C :=
  match outs with
  | [] => (true, c)
  | o :: outs' =>
      let '(continue, c') := consumer o c in
      if continue then feed consumer outs' c' else (false, c')
  end.

(** A consumer that also logs every output it is called with. *)
Definition recording {C} (consumer : TreasuryOutputConsumer C)
  : TreasuryOutputConsumer (C * list TreasuryOutput) :=
  λ o cl,
    let '(continue, c') := consumer o cl.1 in
    (continue, (c', cl.2 ++ [o])).

(** The key partitions the manager iterates over. *)
Definition treasuryPartition (P : byte) (u : Manager) : list (Key * Value) :=
  partition [P] (utxoStorage u).
Definition spentPartition (P : byte) (u : Manager) : list (Key * Value) :=
  partition [P; TreasuryOutputSpentPrefix] (utxoStorage u).
Definition unspentPartition (P : byte) (u : Manager) : list (Key * Value) :=
  partition [P; TreasuryOutputUnspentPrefix] (utxoStorage u).

(** A manager over a healthy store with the given content. *)
Definition managerOf (m : gmap (list byte) (list byte)) : Manager :=
  {| utxoStorage := {| entries := m; fault := None |} |}.

(** Sample data for the examples. *)
Definition sampleID : bytes := replicate 31 x07 ++ [x09].
Definition sampleOutput (spent : bool) : TreasuryOutput :=
  {| MilestoneID := sampleID; Amount := 1000; Spent := spent |}.
Definition samplePrefix : byte := x06.
(** The record a treasury output is stored as. *)
Definition recordOf (o : TreasuryOutput) : Key * Value :=
  (kvStorableKey samplePrefix o, kvStorableValue o).
(** A record of the treasury namespace whose key stops after the spent
    flag and whose value is empty. *)
Definition truncatedRecord (flag : byte) : Key * Value :=
  ([samplePrefix; flag], []).
(** A manager over a healthy store holding the given records. *)
Definition storeOf (l : list (Key * Value)) : Manager :=
  managerOf (list_to_map l).
(** A consumer that always asks for more and captures nothing. *)
Definition greedy : TreasuryOutputConsumer unit := λ _ c, (true, c).
Definition unbounded : IterateOptions :=
  {| readLockLedger := false; maxResultCount := 0 |}.

End obs.

(** ** Further vocabulary *)

Module ext.
Import kvstore utxo.

(** The record under which an output is stored in the namespace [P]. *)
Definition encode (P : byte) (o : TreasuryOutput) : Key * Value :=
  (kvStorableKey P o, kvStorableValue o).

(** A store content whose treasury namespace holds nothing but records
    written for valid treasury outputs. *)
Definition wellFormed (P : byte) (m : gmap (list byte) (list byte)) : Prop :=
  ∀ k v, m !! k = Some v → [P] `prefix_of` k →
         ∃ o, valid o ∧ k = kvStorableKey P o ∧ v = kvStorableValue o.

(** The content of the store behind a manager. *)
Definition content (u : Manager) : gmap (list byte) (list byte) :=
  entries (utxoStorage u).

(** What [Get] answers for a key the store does not hold. *)
Definition errKeyNotFound : error := ErrStore "key not found".

(** What a point read of a healthy store answers: the key is looked up
    and what was found is loaded into a fresh record. *)
Definition readAt (u : Manager) (key : Key) : option TreasuryOutput * option error :=
  match content u !! key with
  | None => (None, Some errKeyNotFound)
  | Some v =>
      match kvStorableLoad zero key v with
      | (_, Some err) => (None, Some err)
      | (to, None) => (Some to, None)
      end
  end.

(** The point reader for the given spent flag. *)
Definition readOwn (P : byte) (spent : bool) (u : Manager) (msHash : bytes)
  : option TreasuryOutput * option error :=
  if spent then readSpentTreasuryOutputWithoutLocking P u msHash
  else readUnspentTreasuryOutputWithoutLocking P u msHash.

Definition oneUnspent : Manager :=
  obs.storeOf [obs.recordOf (obs.sampleOutput false)].
Definition twoOutputs : Manager :=
  obs.storeOf [obs.recordOf (obs.sampleOutput false);
               obs.recordOf (obs.sampleOutput true)].
Definition sampleDeps (clock : Z) : tangle.Deps :=
  tangle.mkDeps true (λ _, 1%nat) 7 (λ _, Some (tangle.mkMilestone 7 0)) clock.

(** The number of occurrences of an event in a trace. *)
Definition occurrences (e : database.Event) (tr : list database.Event) : nat :=
  length (filter (λ e', e' = e) tr).

End ext.

(** * Properties *)

Import marshalutil kvstore utxo gotime obs.

(** ** The codec *)

Section CodecBytes.

Lemma Z_of_byte_of_Z v : Z_of_byte (byte_of_Z v) = Z.land v 255.
Proof.
  unfold Z_of_byte, byte_of_Z.
  assert (Hb : 0 ≤ Z.land v 255 < 256).
  { change 255 with (Z.ones 8). rewrite Z.land_ones by lia.
    change (2 ^ 8) with 256. apply Z.mod_pos_bound. lia. }
  pose proof (Byte.to_of_N_option_map (Z.to_N (Z.land v 255))) as Hm.
  destruct (N.leb_spec (Z.to_N (Z.land v 255)) 255) as [_|Hgt]; [|lia].
  destruct (Byte.of_N (Z.to_N (Z.land v 255))) as [b|]; [|discriminate].
  simpl in *. injection Hm as ->. lia.
Qed.

Lemma testbit_255 m : 0 ≤ m → Z.testbit 255 m = (m <? 8).
Proof.
  intros Hm. change 255 with (Z.ones 8).
  destruct (Z.ltb_spec m 8).
  - apply Z.ones_spec_low. lia.
  - apply Z.ones_spec_high. lia.
Qed.

(** The bits of the [k/8]-th byte of [v], moved back in place. *)
Lemma lane_testbit v k n :
  0 ≤ k → 0 ≤ n →
  Z.testbit (Z.shiftl (Z.land (Z.shiftr v k) 255) k) n
  = Z.testbit v n && (k <=? n) && (n <? k + 8).
Proof.
  intros Hk Hn. rewrite Z.shiftl_spec by lia.
  destruct (Z.leb_spec k n).
  - rewrite Z.land_spec, Z.shiftr_spec, testbit_255 by lia.
    replace (n - k + k) with n by lia.
    replace (n - k <? 8) with (n <? k + 8); [by rewrite andb_true_r|].
    destruct (Z.ltb_spec n (k + 8)), (Z.ltb_spec (n - k) 8); (done || lia).
  - rewrite Z.testbit_neg_r by lia. by rewrite andb_false_r.
Qed.

Ltac decide_cmp :=
  repeat match goal with
    | |- context [?a <=? ?b] =>
        first [ rewrite (proj2 (Z.leb_le a b)) by lia
              | rewrite (proj2 (Z.leb_gt a b)) by lia ]
    | |- context [?a <? ?b] =>
        first [ rewrite (proj2 (Z.ltb_lt a b)) by lia
              | rewrite (proj2 (Z.ltb_ge a b)) by lia ]
    end.

Lemma Uint64_PutUint64 v : 0 ≤ v < 2 ^ 64 → Uint64 (PutUint64 v) = v.
Proof.
  intros Hv. unfold Uint64, PutUint64. simpl.
  rewrite !Z_of_byte_of_Z.
  apply Z.bits_inj'. intros n Hn.
  rewrite !Z.lor_spec, !lane_testbit by lia.
  rewrite Z.land_spec, testbit_255 by lia.
  destruct (Z.testbit v n) eqn:Hbit; [|done].
  assert (n < 64).
  { destruct (Z.lt_ge_cases n 64) as [|Hge]; [done|].
    rewrite <- (Z.mod_small v (2 ^ 64)) in Hbit by lia.
    rewrite Z.mod_pow2_bits_high in Hbit by lia. done. }
  assert (n < 8 ∨ 8 ≤ n < 16 ∨ 16 ≤ n < 24 ∨ 24 ≤ n < 32 ∨ 32 ≤ n < 40
          ∨ 40 ≤ n < 48 ∨ 48 ≤ n < 56 ∨ 56 ≤ n) as Hlane by lia.
  simpl.
  destruct Hlane as [?|[?|[?|[?|[?|[?|[?|?]]]]]]]; decide_cmp; done.
Qed.

Lemma ReadBytes_ok n u :
  (readOffset u + n ≤ length (buf u))%nat →
  ReadBytes n u
  = (inl (take n (drop (readOffset u) (buf u))),
     {| buf := buf u; readOffset := readOffset u + n;
        writeOffset := writeOffset u |}).
Proof. intros H. unfold ReadBytes. by rewrite decide_True. Qed.

Lemma copy_full {A} (dst src : list A) :
  length dst = length src → copy dst src = src.
Proof.
  intros H. unfold copy. rewrite H, Nat.min_id.
  rewrite firstn_all, <- H, drop_all. apply app_nil_r.
Qed.

End CodecBytes.

Section Codec.
Variable P : byte.

(** Whatever the record, its key is the namespace byte, the spent flag
    and then the rest. *)
Lemma kvStorableKey_head t :
  ∃ rest, kvStorableKey P t = P :: (if Spent t then x01 else x00) :: rest.
Proof. unfold kvStorableKey, WriteBool, WriteByte, WriteBytes, Bytes. cbn. eauto. Qed.

Lemma kvStorableKey_eq t :
  length (MilestoneID t) = MilestoneIDLength →
  kvStorableKey P t = P :: (if Spent t then x01 else x00) :: MilestoneID t.
Proof.
  intros Hlen. unfold kvStorableKey, WriteBool, WriteByte, WriteBytes, Bytes.
  cbn. rewrite Hlen. cbn. by rewrite app_nil_r.
Qed.

Lemma kvStorableValue_eq t : kvStorableValue t = PutUint64 (Amount t).
Proof. reflexivity. Qed.

Lemma kvStorableLoad_wellformed t p (spent : bool) mid a :
  length mid = MilestoneIDLength →
  length (MilestoneID t) = MilestoneIDLength →
  0 ≤ a < 2 ^ 64 →
  kvStorableLoad t (p :: (if spent then x01 else x00) :: mid) (PutUint64 a)
  = ({| MilestoneID := mid; Amount := a; Spent := spent |}, None).
Proof.
  intros Hmid Ht Ha. unfold kvStorableLoad, ReadBool, ReadByte, ReadUint64.
  do 4 (rewrite ReadBytes_ok by (cbn; lia);
        cbn [NewBytes buf readOffset writeOffset]).
  cbn [drop take head default Nat.add id].
  replace (bool_decide ((if spent then x01 else x00) = x01)) with spent
    by (by destruct spent).
  rewrite !drop_0, <- Hmid, firstn_all, copy_full by congruence.
  change (take 8 (PutUint64 a)) with (PutUint64 a).
  rewrite Uint64_PutUint64 by done.
  reflexivity.
Qed.

(** A load fails only for want of bytes. *)
Lemma kvStorableLoad_error t key value t' e :
  kvStorableLoad t key value = (t', Some e) →
  ∃ readEnd size, e = ErrReadCapacity readEnd size.
Proof.
  unfold kvStorableLoad, ReadBool, ReadByte, ReadUint64, ReadBytes.
  repeat (case_decide; cbn [NewBytes buf readOffset writeOffset]);
    intros [= <- <-]; eauto.
Qed.

(** C3. Round trip of the codec: for every valid record [x], loading
    the key and value that [kvStorableKey] and [kvStorableValue] produce
    for [x] succeeds (no error) and leaves the receiver equal to [x],
    whatever the receiver held before. *)
Theorem codec_round_trip (x t : TreasuryOutput) :
  valid x →
  length (MilestoneID t) = MilestoneIDLength →
  kvStorableLoad t (kvStorableKey P x) (kvStorableValue x) = (x, None).
Proof.
  intros [Hlen Hamt] Ht.
  rewrite kvStorableKey_eq, kvStorableValue_eq by done.
  rewrite kvStorableLoad_wellformed by done. by destruct x.
Qed.

End Codec.

Lemma codec_round_trip_witness :
  kvStorableLoad zero (kvStorableKey samplePrefix (sampleOutput true))
    (kvStorableValue (sampleOutput true))
  = (sampleOutput true, None).
Proof.
  apply (codec_round_trip samplePrefix (sampleOutput true) zero).
  - split; [reflexivity | split; [discriminate | reflexivity]].
  - reflexivity.
Defined.

(** ** Marking a treasury output as spent or unspent *)

Section Marking.
Variable P : byte.

Lemma set_Spent_agree b (o1 o2 : TreasuryOutput) :
  MilestoneID o1 = MilestoneID o2 → Amount o1 = Amount o2 →
  set_Spent b o1 = set_Spent b o2.
Proof. destruct o1, o2; simpl; intros -> ->; reflexivity. Qed.

Lemma kvStorableKey_spent_ne (o : TreasuryOutput) :
  kvStorableKey P (set_Spent false o) ≠ kvStorableKey P (set_Spent true o).
Proof.
  destruct (kvStorableKey_head P (set_Spent false o)) as [r1 ->].
  destruct (kvStorableKey_head P (set_Spent true o)) as [r2 ->].
  simpl. congruence.
Qed.

Lemma length_PutUint64 v : length (PutUint64 v) = 8%nat.
Proof. reflexivity. Qed.

Lemma Commit_snoc2 q a b s :
  fault s = None →
  Commit (q ++ [a; b]) s
  = (None, {| entries := apply_mutation (apply_mutation (foldl apply_mutation (entries s) q) a) b;
              fault := None |}).
Proof. intros Hs. unfold Commit. rewrite Hs, foldl_app. reflexivity. Qed.

(** C2. Key transition: for every valid treasury output [o] (milestone
    id M, amount A), any queue [q] of mutations already in the batch and
    any store [s] that accepts the commit, in particular one that holds the
    unspent key of M: the call [markTreasuryOutputAsSpent] succeeds, and
    once its batch is committed the unspent key of M is absent and the
    spent key of M is present and holds the 8-byte encoding of A;
    symmetrically, after [markTreasuryOutputAsUnspent] the spent key is
    absent and the unspent key holds the same 8 bytes. *)
Theorem mark_key_transition (o : TreasuryOutput) (q : list Mutation) (s : KVStore) :
  valid o →
  fault s = None →
  let unspentKey := kvStorableKey P (set_Spent false o) in
  let spentKey := kvStorableKey P (set_Spent true o) in
  let amount := kvStorableValue o in
  (length amount = 8%nat ∧ Uint64 amount = Amount o) ∧
  (∃ q' s',
      (markTreasuryOutputAsSpent P o q).2 = (None, q') ∧
      Commit q' s = (None, s') ∧
      entries s' !! unspentKey = None ∧
      entries s' !! spentKey = Some amount) ∧
  (∃ q' s',
      (markTreasuryOutputAsUnspent P o q).2 = (None, q') ∧
      Commit q' s = (None, s') ∧
      entries s' !! spentKey = None ∧
      entries s' !! unspentKey = Some amount).
Proof.
  intros [_ Hamt] Hs unspentKey spentKey amount.
  pose proof (kvStorableKey_spent_ne o) as Hne. fold unspentKey spentKey in Hne.
  split; [|split].
  - subst amount. rewrite kvStorableValue_eq, length_PutUint64.
    by rewrite Uint64_PutUint64.
  - eexists _, _. split; [reflexivity|]. cbn.
    rewrite <- app_assoc. cbn. rewrite Commit_snoc2 by done.
    split; [reflexivity|]. cbn.
    fold unspentKey spentKey.
    rewrite lookup_insert_ne, lookup_delete_eq, lookup_insert_eq by done.
    done.
  - eexists _, _. split; [reflexivity|]. cbn.
    rewrite <- app_assoc. cbn. rewrite Commit_snoc2 by done.
    split; [reflexivity|]. cbn.
    fold unspentKey spentKey.
    rewrite lookup_insert_ne, lookup_delete_eq, lookup_insert_eq by done.
    done.
Qed.

(** C9. Frame: [markTreasuryOutputAsSpent] and
    [markTreasuryOutputAsUnspent] leave the record passed to them as it
    was, and for two inputs that agree on [MilestoneID] and [Amount]
    (whatever their [Spent] fields) they make the same calls on the batch
    with the same result; on the mutation queue these are exactly one
    delete and one set whose keys and value are built from the milestone
    id, the forced spent flag and the amount alone. *)
Theorem mark_frame `{BatchedMutations B} (o1 o2 : TreasuryOutput) (mutations : B)
    (q : list Mutation) :
  MilestoneID o1 = MilestoneID o2 →
  Amount o1 = Amount o2 →
  (* the record behind the pointer is untouched *)
  (markTreasuryOutputAsSpent P o1 mutations).1 = o1 ∧
  (markTreasuryOutputAsUnspent P o1 mutations).1 = o1 ∧
  (* the same calls on the batch, whatever its implementation *)
  (markTreasuryOutputAsSpent P o1 mutations).2
    = (markTreasuryOutputAsSpent P o2 mutations).2 ∧
  (markTreasuryOutputAsUnspent P o1 mutations).2
    = (markTreasuryOutputAsUnspent P o2 mutations).2 ∧
  (* on the queue: one delete and one set, built from the milestone id,
     the forced flag and the amount *)
  (let record spent :=
     {| MilestoneID := MilestoneID o1; Amount := Amount o1; Spent := spent |} in
   (markTreasuryOutputAsSpent P o1 q).2
     = (None, q ++ [MutDelete (kvStorableKey P (record false));
                    MutSet (kvStorableKey P (record true))
                           (kvStorableValue (record true))]) ∧
   (markTreasuryOutputAsUnspent P o1 q).2
     = (None, q ++ [MutDelete (kvStorableKey P (record true));
                    MutSet (kvStorableKey P (record false))
                           (kvStorableValue (record false))])).
Proof.
  intros Hid Hamt.
  assert (Hset : ∀ b, set_Spent b o1 = set_Spent b o2)
    by (intros; by apply set_Spent_agree).
  repeat split.
  - unfold markTreasuryOutputAsSpent. by destruct (batch_Delete _ _) as [[?|] ?].
  - unfold markTreasuryOutputAsUnspent. by destruct (batch_Delete _ _) as [[?|] ?].
  - unfold markTreasuryOutputAsSpent. rewrite !Hset.
    by destruct (batch_Delete _ _) as [[?|] ?].
  - unfold markTreasuryOutputAsUnspent. rewrite !Hset.
    by destruct (batch_Delete _ _) as [[?|] ?].
  - cbn. by rewrite <- app_assoc.
  - cbn. by rewrite <- app_assoc.
Qed.

End Marking.

Lemma mark_key_transition_witness :
  let o := sampleOutput false in
  let s := {| entries := {[ kvStorableKey samplePrefix o := kvStorableValue o ]};
              fault := None |} in
  ∃ q' s',
    (markTreasuryOutputAsSpent samplePrefix o []).2 = (None, q') ∧
    Commit q' s = (None, s') ∧
    entries s' !! kvStorableKey samplePrefix (set_Spent false o) = None ∧
    entries s' !! kvStorableKey samplePrefix (set_Spent true o)
      = Some (kvStorableValue o).
Proof.
  intros o s.
  refine (proj1 (proj2 (mark_key_transition samplePrefix o [] s _ _))).
  - split; [reflexivity | split; [discriminate | reflexivity]].
  - reflexivity.
Defined.

Lemma mark_frame_witness :
  (markTreasuryOutputAsSpent samplePrefix (sampleOutput false) ([] : list Mutation)).2
  = (markTreasuryOutputAsSpent samplePrefix (sampleOutput true) []).2.
Proof.
  refine (proj1 (proj2 (proj2
    (mark_frame samplePrefix (sampleOutput false) (sampleOutput true) [] [] _ _)))).
  - reflexivity.
  - reflexivity.
Defined.

(** ** Iteration over the store *)

Section StoreOrder.

(** The records [Iterate] visits for a prefix are the bindings of the
    store whose key starts with it, each once. *)
Lemma elem_of_partition prefix s k v :
  (k, v) ∈ partition prefix s ↔ entries s !! k = Some v ∧ prefix `prefix_of` k.
Proof.
  unfold partition, ordered. rewrite list_elem_of_filter.
  rewrite merge_sort_Permutation, elem_of_map_to_list. simpl. tauto.
Qed.

Lemma NoDup_partition prefix s : NoDup (partition prefix s).
Proof.
  unfold partition, ordered. apply NoDup_filter.
  rewrite merge_sort_Permutation. apply NoDup_map_to_list.
Qed.

Lemma Iterate_healthy {St} s prefix (f : Key → Value → St → bool * St) st :
  fault s = None →
  Iterate s prefix f st = (None, visit f (partition prefix s) st).
Proof. intros Hs. unfold Iterate. by rewrite Hs. Qed.

End StoreOrder.

Section ForEach.
Context {C : Type}.
Variable opt : IterateOptions.
Variable consumer : TreasuryOutputConsumer C.

Lemma decodes_decode kv : decodes kv → decode kv = ((decode kv).1, None).
Proof. unfold decodes. destruct (decode kv) as [o err]. simpl. by intros ->. Qed.

Lemma bound_open (i : Z) :
  maxResultCount opt ≤ 0 ∨ i < maxResultCount opt →
  bool_decide (maxResultCount opt > 0) && bool_decide (i >= maxResultCount opt) = false.
Proof. intros H. rewrite andb_false_iff, !bool_decide_eq_false. lia. Qed.

Lemma bound_reached (i : Z) :
  0 < maxResultCount opt → maxResultCount opt ≤ i →
  bool_decide (maxResultCount opt > 0) && bool_decide (i >= maxResultCount opt) = true.
Proof. intros H1 H2. rewrite andb_true_iff, !bool_decide_eq_true. lia. Qed.

Lemma forEachCallback_decoded k v (st : forEachScan C) :
  maxResultCount opt ≤ 0 ∨ fe_i st < maxResultCount opt →
  decodes (k, v) →
  forEachCallback opt consumer k v st
  = let '(continue, c) := consumer (decode (k, v)).1 (fe_consumer st) in
    (continue, {| fe_i := fe_i st + 1; fe_innerErr := fe_innerErr st;
                  fe_consumer := c |}).
Proof.
  intros Hmax Hkv. unfold forEachCallback. rewrite bound_open by done.
  apply decodes_decode in Hkv.
  change (kvStorableLoad zero k v) with (decode (k, v)). by rewrite Hkv.
Qed.

(** While records decode, the consumer asks for more and the bound is not
    reached, the callback walks on. *)
Lemma visit_forEach_app pre rest (st : forEachScan C) :
  Forall decodes pre →
  (feed consumer (decoded pre) (fe_consumer st)).1 = true →
  (maxResultCount opt ≤ 0 ∨ fe_i st + Z.of_nat (length pre) ≤ maxResultCount opt) →
  visit (forEachCallback opt consumer) (pre ++ rest) st
  = visit (forEachCallback opt consumer) rest
      {| fe_i := fe_i st + Z.of_nat (length pre);
         fe_innerErr := fe_innerErr st;
         fe_consumer := (feed consumer (decoded pre) (fe_consumer st)).2 |}.
Proof.
  intros Hdec. revert st.
  induction Hdec as [|[k v] pre Hkv Hpre IH]; intros st Hfeed Hmax.
  - destruct st. cbn. by rewrite Z.add_0_r.
  - cbn [app visit].
    rewrite forEachCallback_decoded by (done || cbn [length] in Hmax; lia).
    cbn [decoded fmap list_fmap feed] in Hfeed |- *.
    destruct (consumer _ (fe_consumer st)) as [continue c'] eqn:Hc.
    destruct continue; [|done].
    rewrite IH; cbn [fe_i fe_innerErr fe_consumer]; [|done|cbn [length] in Hmax; lia].
    do 2 f_equal. cbn [length]. lia.
Qed.

(** A record that fails to load stops the walk and leaves its error. *)
Lemma visit_forEach_failure kv rest e (st : forEachScan C) :
  (decode kv).2 = Some e →
  maxResultCount opt ≤ 0 ∨ fe_i st < maxResultCount opt →
  visit (forEachCallback opt consumer) (kv :: rest) st
  = {| fe_i := fe_i st + 1; fe_innerErr := Some e; fe_consumer := fe_consumer st |}.
Proof.
  intros He Hmax. destruct kv as [k v]. cbn [visit]. unfold forEachCallback.
  rewrite bound_open by done.
  change (kvStorableLoad zero k v) with (decode (k, v)).
  destruct (decode (k, v)) as [o err]. simpl in He. by subst err.
Qed.

(** Without a bound, and while records decode, the walk ends only when
    the consumer says so or the records are exhausted. *)
Lemma visit_forEach_unbounded l (st : forEachScan C) :
  maxResultCount opt ≤ 0 →
  Forall decodes l →
  let st' := visit (forEachCallback opt consumer) l st in
  fe_innerErr st' = fe_innerErr st ∧
  fe_consumer st' = (feed consumer (decoded l) (fe_consumer st)).2.
Proof.
  intros Hmax Hdec. cbv zeta. revert st.
  induction Hdec as [|[k v] l Hkv Hl IH]; intros st; [done|].
  cbn [visit]. rewrite forEachCallback_decoded by (done || lia).
  cbn [decoded fmap list_fmap feed].
  destruct (consumer _ (fe_consumer st)) as [continue c'] eqn:Hc.
  destruct continue; [|done].
  apply (IH {| fe_i := fe_i st + 1; fe_innerErr := fe_innerErr st;
               fe_consumer := c' |}).
Qed.

(** The consumer is called at most once per increment of the counter,
    and never once the counter has reached a positive bound. *)
Lemma forEachCallback_bounded k v (st : forEachScan (C * list TreasuryOutput)) :
  0 < maxResultCount opt →
  Z.of_nat (length (fe_consumer st).2) ≤ fe_i st ≤ maxResultCount opt →
  let st' := (forEachCallback opt (recording consumer) k v st).2 in
  Z.of_nat (length (fe_consumer st').2) ≤ fe_i st' ≤ maxResultCount opt.
Proof.
  intros Hpos Hinv. cbv zeta. unfold forEachCallback.
  destruct (decide (fe_i st < maxResultCount opt)) as [Hlt|Hge].
  - rewrite bound_open by lia.
    destruct (kvStorableLoad zero k v) as [o [err|]].
    + cbn. lia.
    + unfold recording.
      destruct (consumer o (fe_consumer st).1) as [continue c'].
      cbn. rewrite length_app. cbn. lia.
  - rewrite bound_reached by lia. done.
Qed.

Lemma visit_forEach_bounded l (st : forEachScan (C * list TreasuryOutput)) :
  0 < maxResultCount opt →
  Z.of_nat (length (fe_consumer st).2) ≤ fe_i st ≤ maxResultCount opt →
  let st' := visit (forEachCallback opt (recording consumer)) l st in
  Z.of_nat (length (fe_consumer st').2) ≤ fe_i st' ≤ maxResultCount opt.
Proof.
  intros Hpos. cbv zeta. revert st.
  induction l as [|[k v] l IH]; intros st Hinv; [done|].
  cbn [visit].
  pose proof (forEachCallback_bounded k v st Hpos Hinv) as Hstep.
  destruct (forEachCallback opt (recording consumer) k v st) as [continue st1].
  destruct continue; [by apply IH | done].
Qed.

(** When the consumer always asks for more, it is fed everything. *)
Lemma feed_recording_all outs c log :
  (∀ o c, (consumer o c).1 = true) →
  (feed (recording consumer) outs (c, log)).2.2 = log ++ outs.
Proof.
  intros Hall. revert c log.
  induction outs as [|o outs IH]; intros c log; cbn [feed].
  - by rewrite app_nil_r.
  - unfold recording at 1. cbn [fst snd].
    pose proof (Hall o c) as Ho.
    destruct (consumer o c) as [continue c']. simpl in Ho. subst continue.
    rewrite IH, <- app_assoc. done.
Qed.

End ForEach.

Section ForEachTheorems.
Variable P : byte.
Context {C : Type}.
Variable consumer : TreasuryOutputConsumer C.
Variable opt : IterateOptions.
Variable u : Manager.

Lemma ForEachTreasuryOutput_healthy {D} (f : TreasuryOutputConsumer D) (d : D) :
  fault (utxoStorage u) = None →
  ForEachTreasuryOutput P f opt u d
  = let st := visit (forEachCallback opt f) (treasuryPartition P u)
                {| fe_i := 0; fe_innerErr := None; fe_consumer := d |} in
    (fe_innerErr st, fe_consumer st).
Proof. intros Hs. unfold ForEachTreasuryOutput. by rewrite Iterate_healthy. Qed.

Lemma ForEachSpentTreasuryOutput_healthy {D} (f : TreasuryOutputConsumer D) (d : D) :
  fault (utxoStorage u) = None →
  ForEachSpentTreasuryOutput P f opt u d
  = let st := visit (forEachCallback opt f) (spentPartition P u)
                {| fe_i := 0; fe_innerErr := None; fe_consumer := d |} in
    (fe_innerErr st, fe_consumer st).
Proof. intros Hs. unfold ForEachSpentTreasuryOutput. by rewrite Iterate_healthy. Qed.

Lemma visit_forEach_stops (c : C) pre kv post e :
  (decode kv).2 = Some e →
  Forall decodes pre →
  (feed consumer (decoded pre) c).1 = true →
  maxResultCount opt ≤ 0 ∨ Z.of_nat (length pre) < maxResultCount opt →
  let st := visit (forEachCallback opt consumer) (pre ++ kv :: post)
              {| fe_i := 0; fe_innerErr := None; fe_consumer := c |} in
  (fe_innerErr st, fe_consumer st) = (Some e, (feed consumer (decoded pre) c).2).
Proof.
  intros He Hpre Hfeed Hmax. cbv zeta.
  rewrite visit_forEach_app by (done || cbn; lia).
  erewrite visit_forEach_failure by (done || cbn; lia). done.
Qed.

(** C4. A decode failure aborts the iteration.  Take a healthy store, any
    consumer and options, and a record [kv] of the iterated partition on
    which decoding is attempted: every record of [pre], the records before
    it, decoded, the consumer asked for more after each of them, and the
    result bound is not reached.  If loading [kv] fails with [e], then
    [ForEachTreasuryOutput] (over the treasury namespace) and
    [ForEachSpentTreasuryOutput] (over its spent partition) return [e],
    not success, and the consumer is left as it was after the outputs of
    [pre]: it is called neither on [kv] nor on any record of [post]. *)
Theorem forEach_decode_failure (c : C) pre kv post e :
  fault (utxoStorage u) = None →
  (decode kv).2 = Some e →
  Forall decodes pre →
  (feed consumer (decoded pre) c).1 = true →
  maxResultCount opt ≤ 0 ∨ Z.of_nat (length pre) < maxResultCount opt →
  (treasuryPartition P u = pre ++ kv :: post →
   ForEachTreasuryOutput P consumer opt u c
   = (Some e, (feed consumer (decoded pre) c).2)) ∧
  (spentPartition P u = pre ++ kv :: post →
   ForEachSpentTreasuryOutput P consumer opt u c
   = (Some e, (feed consumer (decoded pre) c).2)).
Proof.
  intros Hs He Hpre Hfeed Hmax. split; intros Hpart.
  - rewrite ForEachTreasuryOutput_healthy, Hpart by done.
    by apply visit_forEach_stops.
  - rewrite ForEachSpentTreasuryOutput_healthy, Hpart by done.
    by apply visit_forEach_stops.
Qed.

Lemma visit_forEach_all (c : C) l :
  maxResultCount opt ≤ 0 →
  Forall decodes l →
  let st := visit (forEachCallback opt consumer) l
              {| fe_i := 0; fe_innerErr := None; fe_consumer := c |} in
  (fe_innerErr st, fe_consumer st) = (None, (feed consumer (decoded l) c).2).
Proof.
  intros Hmax Hl. cbv zeta.
  destruct (visit_forEach_unbounded opt consumer l
              {| fe_i := 0; fe_innerErr := None; fe_consumer := c |} Hmax Hl)
    as [-> ->]. done.
Qed.

Lemma ForEach_recorded_bound (c : C) prefix :
  0 < maxResultCount opt →
  let r := Iterate (utxoStorage u) prefix
             (forEachCallback opt (recording consumer))
             {| fe_i := 0; fe_innerErr := None; fe_consumer := (c, []) |} in
  Z.of_nat (length (fe_consumer r.2).2) ≤ maxResultCount opt.
Proof.
  intros Hpos. cbv zeta. unfold Iterate.
  destruct (fault (utxoStorage u)); cbn [snd fe_consumer length]; [lia|].
  pose proof (visit_forEach_bounded opt consumer (partition prefix (utxoStorage u))
                {| fe_i := 0; fe_innerErr := None; fe_consumer := (c, []) |} Hpos)
    as Hb.
  cbv zeta in Hb. cbn [fe_i fe_consumer snd length] in Hb. lia.
Qed.

(** C5, amended.  With [maxResultCount = N > 0],
    [ForEachTreasuryOutput] and [ForEachSpentTreasuryOutput] call the
    consumer on at most N records, whatever the store holds.  With
    [N ≤ 0], on a healthy store in which every record of the iterated
    partition decodes, they hand the consumer the decoded records of the
    whole partition in order, for as long as it asks for more, and return
    no error; a consumer that always asks for more is fed every record. *)
Theorem forEach_result_count (c : C) :
  (0 < maxResultCount opt →
   Z.of_nat (length (ForEachTreasuryOutput P (recording consumer) opt u (c, [])).2.2)
     ≤ maxResultCount opt ∧
   Z.of_nat (length (ForEachSpentTreasuryOutput P (recording consumer) opt u (c, [])).2.2)
     ≤ maxResultCount opt) ∧
  (maxResultCount opt ≤ 0 →
   fault (utxoStorage u) = None →
   (Forall decodes (treasuryPartition P u) →
    ForEachTreasuryOutput P consumer opt u c
      = (None, (feed consumer (decoded (treasuryPartition P u)) c).2) ∧
    ((∀ o c', (consumer o c').1 = true) →
     (ForEachTreasuryOutput P (recording consumer) opt u (c, [])).2.2
       = decoded (treasuryPartition P u))) ∧
   (Forall decodes (spentPartition P u) →
    ForEachSpentTreasuryOutput P consumer opt u c
      = (None, (feed consumer (decoded (spentPartition P u)) c).2) ∧
    ((∀ o c', (consumer o c').1 = true) →
     (ForEachSpentTreasuryOutput P (recording consumer) opt u (c, [])).2.2
       = decoded (spentPartition P u)))).
Proof.
  split.
  - intros Hpos. split.
    + pose proof (ForEach_recorded_bound c [P] Hpos) as Hb. cbv zeta in Hb.
      unfold ForEachTreasuryOutput.
      by destruct (Iterate _ _ _ _) as [[?|] ?].
    + pose proof (ForEach_recorded_bound c [P; TreasuryOutputSpentPrefix] Hpos) as Hb.
      cbv zeta in Hb. unfold ForEachSpentTreasuryOutput.
      by destruct (Iterate _ _ _ _) as [[?|] ?].
  - intros Hmax Hs. split; intros Hdec; split.
    + rewrite ForEachTreasuryOutput_healthy by done. by apply visit_forEach_all.
    + intros Hall. rewrite ForEachTreasuryOutput_healthy by done.
      cbv zeta.
      destruct (visit_forEach_unbounded opt (recording consumer) _
                  {| fe_i := 0; fe_innerErr := None; fe_consumer := (c, []) |}
                  Hmax Hdec) as [_ Hc].
      cbn [snd]. rewrite Hc. cbn [fe_consumer].
      by rewrite feed_recording_all.
    + rewrite ForEachSpentTreasuryOutput_healthy by done. by apply visit_forEach_all.
    + intros Hall. rewrite ForEachSpentTreasuryOutput_healthy by done.
      cbv zeta.
      destruct (visit_forEach_unbounded opt (recording consumer) _
                  {| fe_i := 0; fe_innerErr := None; fe_consumer := (c, []) |}
                  Hmax Hdec) as [_ Hc].
      cbn [snd]. rewrite Hc. cbn [fe_consumer].
      by rewrite feed_recording_all.
Qed.

End ForEachTheorems.

(** ** The unspent treasury output *)

Section Unspent.
Variable P : byte.

Lemma unspentCallback_decoded k v st :
  decodes (k, v) →
  unspentCallback k v st
  = (true, {| us_i := us_i st + 1; us_innerErr := us_innerErr st;
              us_unspentTreasuryOutput := Some (decode (k, v)).1 |}).
Proof.
  intros Hkv. unfold unspentCallback. apply decodes_decode in Hkv.
  change (kvStorableLoad zero k v) with (decode (k, v)). by rewrite Hkv.
Qed.

Lemma visit_unspent_all l st :
  Forall decodes l →
  visit unspentCallback l st
  = {| us_i := us_i st + Z.of_nat (length l);
       us_innerErr := us_innerErr st;
       us_unspentTreasuryOutput :=
         match last l with
         | Some kv => Some (decode kv).1
         | None => us_unspentTreasuryOutput st
         end |}.
Proof.
  intros Hl. revert st.
  induction Hl as [|[k v] l Hkv Hl IH]; intros st.
  - destruct st. cbn. by rewrite Z.add_0_r.
  - cbn [visit]. rewrite unspentCallback_decoded by done.
    rewrite IH. cbn [us_i us_innerErr us_unspentTreasuryOutput length].
    rewrite last_cons. f_equal; [lia|]. by destruct (last l).
Qed.

Lemma visit_unspent_app pre rest st :
  Forall decodes pre →
  visit unspentCallback (pre ++ rest) st
  = visit unspentCallback rest (visit unspentCallback pre st).
Proof.
  intros Hpre. revert st.
  induction Hpre as [|[k v] pre Hkv Hpre IH]; intros st; [done|].
  cbn [app visit]. rewrite unspentCallback_decoded by done. apply IH.
Qed.

Lemma visit_unspent_failure l pre kv post e st :
  l = pre ++ kv :: post →
  Forall decodes pre →
  (decode kv).2 = Some e →
  us_innerErr (visit unspentCallback l st) = Some e.
Proof.
  intros -> Hpre He. rewrite visit_unspent_app by done.
  destruct kv as [k v]. cbn [visit]. unfold unspentCallback.
  change (kvStorableLoad zero k v) with (decode (k, v)).
  destruct (decode (k, v)) as [o err]. simpl in He. by subst err.
Qed.

(** Either every record decodes, or there is a first one that does not. *)
Lemma first_failure (l : list (Key * Value)) :
  Forall decodes l ∨
  ∃ pre kv post e,
    l = pre ++ kv :: post ∧ Forall decodes pre ∧ (decode kv).2 = Some e.
Proof.
  induction l as [|kv l IH]; [by left|].
  destruct (decide (decodes kv)) as [Hkv|Hkv].
  - destruct IH as [Hl|(pre & kv' & post & e & -> & Hpre & He)].
    + left. by constructor.
    + right. exists (kv :: pre), kv', post, e.
      split; [done|]. split; [by constructor | done].
  - right. unfold decodes in Hkv.
    destruct (decode kv).2 as [e|] eqn:He; [|done].
    by exists [], kv, l, e.
Qed.

Lemma decode_error kv e : (decode kv).2 = Some e → ∃ a b, e = ErrReadCapacity a b.
Proof.
  unfold decode. destruct (kvStorableLoad zero kv.1 kv.2) as [t' err] eqn:Hload.
  simpl. intros ->. by eapply kvStorableLoad_error.
Qed.

Lemma UnspentTreasuryOutput_healthy u :
  fault (utxoStorage u) = None →
  UnspentTreasuryOutput P u
  = let st := visit unspentCallback (unspentPartition P u)
                {| us_i := 0; us_innerErr := None;
                   us_unspentTreasuryOutput := None |} in
    match us_innerErr st with
    | Some innerErr => (None, Some innerErr)
    | None =>
        if decide (us_i st > 1) then (None, Some errMoreThanOne)
        else if decide (us_i st = 0) then (None, Some errNoTreasuryOutput)
        else (us_unspentTreasuryOutput st, None)
    end.
Proof. intros Hs. unfold UnspentTreasuryOutput. by rewrite Iterate_healthy. Qed.

Lemma UnspentTreasuryOutput_all_decode u :
  fault (utxoStorage u) = None →
  Forall decodes (unspentPartition P u) →
  UnspentTreasuryOutput P u
  = match unspentPartition P u with
    | [] => (None, Some errNoTreasuryOutput)
    | [kv] => (Some (decode kv).1, None)
    | _ => (None, Some errMoreThanOne)
    end.
Proof.
  intros Hs Hdec. rewrite UnspentTreasuryOutput_healthy by done. cbv zeta.
  rewrite visit_unspent_all by done.
  cbn [us_i us_innerErr us_unspentTreasuryOutput].
  destruct (unspentPartition P u) as [|kv [|kv' l]]; cbn [length last]; try done.
  rewrite decide_True by lia. done.
Qed.

(** C1, amended.  On a healthy store in which every record of the
    unspent-treasury partition decodes, [UnspentTreasuryOutput] returns a
    treasury output exactly when the partition holds exactly one record,
    and then it is that record decoded; with no record it returns
    [ErrInvalidTreasuryState] wrapped with "no treasury output exists",
    with more than one [ErrInvalidTreasuryState] wrapped with "more than
    one unspent treasury output exists". *)
Theorem unspent_singleton u :
  fault (utxoStorage u) = None →
  Forall decodes (unspentPartition P u) →
  let n := length (unspentPartition P u) in
  ((∃ o, UnspentTreasuryOutput P u = (Some o, None)) ↔ n = 1%nat) ∧
  (∀ kv, unspentPartition P u = [kv] →
         UnspentTreasuryOutput P u = (Some (decode kv).1, None)) ∧
  (n = 0%nat → UnspentTreasuryOutput P u = (None, Some errNoTreasuryOutput)) ∧
  ((n > 1)%nat → UnspentTreasuryOutput P u = (None, Some errMoreThanOne)).
Proof.
  intros Hs Hdec n. subst n.
  rewrite UnspentTreasuryOutput_all_decode by done.
  destruct (unspentPartition P u) as [|kv [|kv' l]]; cbn [length].
  - repeat split; try done; try lia. intros [o [=]].
  - repeat split; try done; try lia; eauto. by intros kv0 [= ->].
  - repeat split; try done; try lia. intros [o [=]].
Qed.

(** C10. A decode failure takes precedence over the count check of
    [UnspentTreasuryOutput]: if some visited record of the unspent
    partition fails to decode (the store is healthy, the records before it
    decoded), the call returns that decode error; and whenever the call
    returns an [ErrInvalidTreasuryState] error, the store was healthy and
    every record of the partition, all of them visited, decoded. *)
Theorem unspent_decode_precedence u :
  (∀ pre kv post e,
      fault (utxoStorage u) = None →
      unspentPartition P u = pre ++ kv :: post →
      Forall decodes pre →
      (decode kv).2 = Some e →
      UnspentTreasuryOutput P u = (None, Some e)) ∧
  (∀ msg,
      (UnspentTreasuryOutput P u).2 = Some (Errorf_w ErrInvalidTreasuryState msg) →
      fault (utxoStorage u) = None ∧ Forall decodes (unspentPartition P u)).
Proof.
  split.
  - intros pre kv post e Hs Hpart Hpre He.
    rewrite UnspentTreasuryOutput_healthy by done. cbv zeta.
    by erewrite visit_unspent_failure.
  - intros msg Hres.
    destruct (fault (utxoStorage u)) as [m|] eqn:Hs.
    { unfold UnspentTreasuryOutput, Iterate in Hres. by rewrite Hs in Hres. }
    split; [done|].
    destruct (first_failure (unspentPartition P u))
      as [Hall|(pre & kv & post & e & Hpart & Hpre & He)]; [done|].
    rewrite UnspentTreasuryOutput_healthy in Hres by done. cbv zeta in Hres.
    erewrite visit_unspent_failure in Hres by done.
    destruct (decode_error _ _ He) as (a & b & ->). by simplify_eq/=.
Qed.

End Unspent.

(** A partition holding exactly one record, truncated: the call returns
    the decode error, not a treasury output. *)
Lemma unspent_singleton_counterexample :
  let u := storeOf [truncatedRecord TreasuryOutputUnspentPrefix] in
  length (unspentPartition samplePrefix u) = 1%nat ∧
  UnspentTreasuryOutput samplePrefix u = (None, Some (ErrReadCapacity 34 2)) ∧
  ¬ ((∃ o, UnspentTreasuryOutput samplePrefix u = (Some o, None))
     ↔ length (unspentPartition samplePrefix u) = 1%nat).
Proof.
  intros u.
  assert (Hlen : length (unspentPartition samplePrefix u) = 1%nat)
    by (vm_compute; reflexivity).
  assert (Hres : UnspentTreasuryOutput samplePrefix u
                 = (None, Some (ErrReadCapacity 34 2)))
    by (vm_compute; reflexivity).
  split; [done|]. split; [done|].
  intros [_ Hback]. destruct (Hback Hlen) as [o Ho].
  rewrite Hres in Ho. discriminate.
Qed.

Lemma unspent_singleton_witness :
  let u := storeOf [recordOf (sampleOutput false); recordOf (sampleOutput true)] in
  UnspentTreasuryOutput samplePrefix u = (Some (sampleOutput false), None).
Proof.
  intros u.
  assert (Hpart : unspentPartition samplePrefix u = [recordOf (sampleOutput false)])
    by (vm_compute; reflexivity).
  assert (Hs : fault (utxoStorage u) = None) by reflexivity.
  assert (Hdec : Forall decodes (unspentPartition samplePrefix u)).
  { rewrite Hpart. repeat constructor. }
  exact (proj1 (proj2 (unspent_singleton samplePrefix u Hs Hdec)) _ Hpart).
Defined.

Lemma unspent_decode_precedence_witness :
  let u := storeOf [truncatedRecord TreasuryOutputUnspentPrefix;
                    recordOf (sampleOutput false)] in
  UnspentTreasuryOutput samplePrefix u = (None, Some (ErrReadCapacity 34 2)).
Proof.
  intros u.
  refine (proj1 (unspent_decode_precedence samplePrefix u)
            [] (truncatedRecord TreasuryOutputUnspentPrefix)
            [recordOf (sampleOutput false)] _ _ _ _ _).
  - reflexivity.
  - vm_compute; reflexivity.
  - constructor.
  - reflexivity.
Defined.

Lemma forEach_decode_failure_witness :
  let u := storeOf [recordOf (sampleOutput false);
                    truncatedRecord TreasuryOutputSpentPrefix;
                    recordOf (sampleOutput true)] in
  ForEachTreasuryOutput samplePrefix (recording greedy) unbounded u (tt, [])
  = (Some (ErrReadCapacity 34 2), (tt, [sampleOutput false])).
Proof.
  intros u.
  refine (proj1 (forEach_decode_failure samplePrefix (recording greedy) unbounded u
            (tt, []) [recordOf (sampleOutput false)]
            (truncatedRecord TreasuryOutputSpentPrefix)
            [recordOf (sampleOutput true)] _ _ _ _ _ _) _).
  - reflexivity.
  - reflexivity.
  - repeat constructor.
  - reflexivity.
  - left. reflexivity.
  - vm_compute; reflexivity.
Defined.

(** Without a bound and with a consumer that always asks for more, a
    partition of two records, the first one truncated, feeds nothing. *)
Lemma forEach_result_count_counterexample :
  let u := storeOf [truncatedRecord TreasuryOutputUnspentPrefix;
                    recordOf (sampleOutput false)] in
  let fed := (ForEachTreasuryOutput samplePrefix (recording greedy)
                unbounded u (tt, [])).2.2 in
  maxResultCount unbounded ≤ 0 ∧
  (∀ o c, (greedy o c).1 = true) ∧
  treasuryPartition samplePrefix u
  = [truncatedRecord TreasuryOutputUnspentPrefix; recordOf (sampleOutput false)] ∧
  fed = [] ∧
  length fed ≠ length (treasuryPartition samplePrefix u).
Proof.
  intros u fed.
  assert (Hfed : fed = []) by (vm_compute; reflexivity).
  assert (Hpart : treasuryPartition samplePrefix u
                  = [truncatedRecord TreasuryOutputUnspentPrefix;
                     recordOf (sampleOutput false)])
    by (vm_compute; reflexivity).
  split; [vm_compute; discriminate|]. split; [done|]. split; [done|].
  split; [done|]. rewrite Hfed, Hpart. discriminate.
Qed.

Lemma forEach_result_count_witness :
  let u := storeOf [recordOf (sampleOutput false); recordOf (sampleOutput true)] in
  Z.of_nat (length (ForEachTreasuryOutput samplePrefix (recording greedy)
                      {| readLockLedger := false; maxResultCount := 1 |}
                      u (tt, [])).2.2) ≤ 1 ∧
  (ForEachTreasuryOutput samplePrefix (recording greedy) unbounded u (tt, [])).2.2
  = [sampleOutput false; sampleOutput true].
Proof.
  intros u. split.
  - refine (proj1 (proj1 (forEach_result_count samplePrefix greedy
              {| readLockLedger := false; maxResultCount := 1 |} u tt) _)).
    reflexivity.
  - assert (Hpart : treasuryPartition samplePrefix u
                    = [recordOf (sampleOutput false); recordOf (sampleOutput true)])
      by (vm_compute; reflexivity).
    assert (Hdec : Forall decodes (treasuryPartition samplePrefix u)).
    { rewrite Hpart. repeat constructor. }
    pose proof (proj2 (proj1 (proj2 (forEach_result_count samplePrefix greedy
                  unbounded u tt) ltac:(discriminate) eq_refl) Hdec)
                  (λ _ _, eq_refl)) as Hfed.
    rewrite Hfed, Hpart. vm_compute. reflexivity.
Defined.

(** ** Node health *)

Section Health.
Import tangle.

Lemma Since_lt now_ t (d : Duration) :
  minDuration < d ≤ maxDuration →
  Since now_ t < d ↔ now_ - t < d.
Proof.
  unfold Since, Sub, minDuration, maxDuration. intros Hd.
  repeat case_decide; lia.
Qed.

Lemma IsNodeHealthy_unfold deps :
  IsNodeHealthy deps = true ↔
  IsNodeSyncedWithThreshold deps = true ∧
  (1 ≤ ConnectedCount deps PeerRelationKnown)%nat ∧
  ∃ m, GetCachedMilestoneOrNil deps (GetLatestMilestoneIndex deps) = Some m ∧
       now deps - Timestamp m < 5 * Minute.
Proof.
  unfold IsNodeHealthy.
  destruct (IsNodeSyncedWithThreshold deps); cbn [negb].
  2:{ split; [done|]. by intros [? _]. }
  case_decide as Hcount.
  { split; [done|]. intros (_ & ? & _). lia. }
  destruct (GetCachedMilestoneOrNil deps (GetLatestMilestoneIndex deps)) as [m|].
  2:{ split; [done|]. by intros (_ & _ & m & ? & _). }
  rewrite bool_decide_eq_true, Since_lt by (vm_compute; done).
  change maxAllowedMilestoneAge with (5 * Minute) at 1.
  split.
  - intros Hage. split; [done|]. split; [lia|]. by exists m.
  - by intros (_ & _ & m' & [= <-] & Hage).
Qed.

(** C6. [IsNodeHealthy] answers [true] exactly when the node is synced
    within the threshold, at least one peer of the known relation is
    connected, the latest milestone is retrievable and its timestamp lies
    less than five minutes before the current time.  In particular, for a
    synced node with at least one known peer, a milestone timestamp 4
    minutes 59 seconds in the past gives [true] and one 5 minutes 1 second
    in the past gives [false]. *)
Theorem node_health deps :
  (IsNodeHealthy deps = true ↔
   IsNodeSyncedWithThreshold deps = true ∧
   (1 ≤ ConnectedCount deps PeerRelationKnown)%nat ∧
   ∃ m, GetCachedMilestoneOrNil deps (GetLatestMilestoneIndex deps) = Some m ∧
        now deps - Timestamp m < 5 * Minute) ∧
  (∀ m,
     IsNodeSyncedWithThreshold deps = true →
     (1 ≤ ConnectedCount deps PeerRelationKnown)%nat →
     GetCachedMilestoneOrNil deps (GetLatestMilestoneIndex deps) = Some m →
     (Timestamp m = now deps - (4 * Minute + 59 * Second) →
      IsNodeHealthy deps = true) ∧
     (Timestamp m = now deps - (5 * Minute + 1 * Second) →
      IsNodeHealthy deps = false)).
Proof.
  split; [apply IsNodeHealthy_unfold|].
  intros m Hsync Hcount Hm. split; intros Hts.
  - apply IsNodeHealthy_unfold. split; [done|]. split; [done|].
    exists m. split; [done|]. rewrite Hts.
    unfold Minute, Second, Millisecond, Nanosecond. lia.
  - apply not_true_is_false. rewrite IsNodeHealthy_unfold.
    intros (_ & _ & m' & Hm' & Hage). rewrite Hm in Hm'. injection Hm' as <-.
    rewrite Hts in Hage. unfold Minute, Second, Millisecond, Nanosecond in Hage. lia.
Qed.

End Health.

Lemma node_health_witness :
  let m := tangle.mkMilestone 7 0 in
  let deps at_ := tangle.mkDeps true (λ _, 1%nat) 7 (λ _, Some m) at_ in
  tangle.IsNodeHealthy (deps (4 * Minute + 59 * Second)) = true ∧
  tangle.IsNodeHealthy (deps (5 * Minute + 1 * Second)) = false.
Proof.
  intros m deps. split.
  - refine (proj1 (proj2 (node_health (deps (4 * Minute + 59 * Second)))
                     m _ _ _) _); (reflexivity || (cbn; lia)).
  - refine (proj2 (proj2 (node_health (deps (5 * Minute + 1 * Second)))
                     m _ _ _) _); (reflexivity || (cbn; lia)).
Defined.

(** ** Database lifecycle *)

Section Lifecycle.
Import database.

Lemma cleanupEvents_app tr1 tr2 :
  cleanupEvents (tr1 ++ tr2) = cleanupEvents tr1 ++ cleanupEvents tr2.
Proof. apply omap_app. Qed.

Lemma logsAt_app lvl tr1 tr2 :
  logsAt lvl (tr1 ++ tr2) = logsAt lvl tr1 ++ logsAt lvl tr2.
Proof. apply omap_app. Qed.

(** Runs a computation of the plugin on an explicit world. *)
Ltac run_world :=
  cbv [RunGarbageCollection closeDatabaseWorker closeDatabases configure
       CleanupDatabases Flush Close MarkDatabaseHealthy Trigger Now
       logInfo logInfof logWarnf logPanic act ask emit advance
       mbind mret M_bind M_ret negb fst snd
       isCorrectDatabaseVersion updateDatabaseVersion flushResult closeResult
       databaseSupportsCleanup cleanupResult cleanupDuration clock trace].

Lemma RunGarbageCollection_supported w :
  databaseSupportsCleanup w = true →
  (RunGarbageCollection w).1 = Returned tt ∧
  trace (RunGarbageCollection w).2 = trace w ++ collectionTrace w.
Proof.
  intros Hsup. unfold collectionTrace.
  destruct w as [v1 v2 fr cr sup res dur clk tr]. cbn in Hsup. subst sup.
  destruct res as [err|]; [destruct (decide (err ≠ ErrNothingToCleanUp)) as [Hne|Heq]|].
  - run_world. rewrite !decide_True by done. run_world. by rewrite <- ?app_assoc.
  - run_world. rewrite !decide_False by done. run_world. by rewrite <- ?app_assoc.
  - run_world. by rewrite <- ?app_assoc.
Qed.

(** C8. When the backend does not support cleanup,
    [RunGarbageCollection] returns at once and changes nothing: no event,
    no log line, no lock.  When it does, the call returns normally and
    triggers exactly two [DatabaseCleanup] events, first one carrying the
    start time only, then one carrying the start and the end time,
    whatever [CleanupDatabases] answered; it never logs at panic level;
    and when the cleanup failed with an error other than
    [ErrNothingToCleanUp], the one line it logs about the outcome is a
    warning carrying the error (the other line is the starting notice). *)
Theorem garbage_collection_events w :
  (databaseSupportsCleanup w = false →
   RunGarbageCollection w = (Returned tt, w)) ∧
  (databaseSupportsCleanup w = true →
   ∃ w',
     RunGarbageCollection w = (Returned tt, w') ∧
     cleanupEvents (trace w')
       = cleanupEvents (trace w)
         ++ [ {| Start := clock w; End_ := zeroTime |};
              {| Start := clock w; End_ := clock w + cleanupDuration w |} ] ∧
     logsAt LevelPanic (trace w') = logsAt LevelPanic (trace w) ∧
     (∀ err,
        cleanupResult w = Some err → err ≠ ErrNothingToCleanUp →
        logsAt LevelWarn (trace w')
          = logsAt LevelWarn (trace w)
            ++ [ ("full database garbage collection failed with error: %s. took: %v",
                  [ArgError err;
                   ArgDuration (Truncate (Sub (clock w + cleanupDuration w) (clock w))
                                  Millisecond)]) ] ∧
        logsAt LevelInfo (trace w')
          = logsAt LevelInfo (trace w)
            ++ [ ("running full database garbage collection. This can take a while...",
                  []) ])).
Proof.
  split.
  - intros Hsup. unfold RunGarbageCollection.
    destruct w. simpl in Hsup. subst. reflexivity.
  - intros Hsup. destruct (RunGarbageCollection_supported w Hsup) as [Hrun Htr].
    exists (RunGarbageCollection w).2.
    split; [by rewrite <- Hrun; destruct (RunGarbageCollection w)|].
    rewrite Htr, cleanupEvents_app, !logsAt_app.
    unfold collectionTrace.
    split; [|split].
    + by destruct (cleanupResult w) as [err|]; [case_decide|].
    + destruct (cleanupResult w) as [err|]; [case_decide|]; cbn; by rewrite app_nil_r.
    + intros err -> Hne. rewrite decide_True by done. done.
Qed.

Lemma closeDatabaseWorker_trace w :
  ∃ w', closeDatabaseWorker w = (Returned tt, w') ∧
        trace w' = trace w
                   ++ [EvMarkDatabaseHealthy;
                       EvLog LevelInfo "Syncing databases to disk..." [];
                       EvFlush]
                   ++ match flushResult w with
                      | Some _ => []
                      | None => [EvClose]
                      end
                   ++ [EvLog LevelInfo "Syncing databases to disk... done" []].
Proof.
  destruct w as [v1 v2 fr cr sup res dur clk tr].
  destruct fr as [e|]; [|destruct cr as [e|]];
    (eexists; split; [reflexivity|]); cbn; rewrite <- ?app_assoc; done.
Qed.

Lemma closeDatabases_first_error w :
  (closeDatabases w).1
  = Returned match flushResult w with
             | Some e => Some e
             | None => closeResult w
             end.
Proof.
  destruct w as [v1 v2 fr cr sup res dur clk tr].
  by destruct fr as [e|]; [|destruct cr as [e|]].
Qed.

(** C7, at the failing inputs.  When [Flush] fails, or [Flush] succeeds
    and [Close] fails, [closeDatabases] hands that first error to the
    worker, but the worker drops it: it returns nothing, logs no warning
    and no panic, and ends with the line "Syncing databases to disk...
    done". *)
Theorem shutdown_error_dropped w e :
  flushResult w = Some e ∨ (flushResult w = None ∧ closeResult w = Some e) →
  (closeDatabases w).1 = Returned (Some e) ∧
  (closeDatabaseWorker w).1 = Returned tt ∧
  last (trace (closeDatabaseWorker w).2)
    = Some (EvLog LevelInfo "Syncing databases to disk... done" []) ∧
  logsAt LevelWarn (trace (closeDatabaseWorker w).2) = logsAt LevelWarn (trace w) ∧
  logsAt LevelPanic (trace (closeDatabaseWorker w).2) = logsAt LevelPanic (trace w).
Proof.
  intros Herr.
  destruct (closeDatabaseWorker_trace w) as (w' & Hrun & Htr).
  rewrite closeDatabases_first_error, Hrun. cbn [fst snd]. rewrite Htr.
  split; [|split; [done|split; [|split]]].
  - by destruct Herr as [->|[-> ->]].
  - rewrite !app_assoc. apply last_snoc.
  - rewrite !logsAt_app. destruct (flushResult w); cbn; by rewrite app_nil_r.
  - rewrite !logsAt_app. destruct (flushResult w); cbn; by rewrite app_nil_r.
Qed.

End Lifecycle.

Lemma garbage_collection_events_witness :
  database.RunGarbageCollection (database.sampleWorld None None false)
  = (database.Returned tt, database.sampleWorld None None false) ∧
  ∃ w', database.RunGarbageCollection (database.sampleWorld None None true)
        = (database.Returned tt, w') ∧
        database.cleanupEvents (database.trace w')
        = [ database.mkDatabaseCleanup 100 0; database.mkDatabaseCleanup 100 1500100 ].
Proof.
  split.
  - exact (proj1 (garbage_collection_events (database.sampleWorld None None false))
             eq_refl).
  - destruct (proj2 (garbage_collection_events (database.sampleWorld None None true))
                eq_refl) as (w' & Hrun & Hev & _).
    exists w'. split; [exact Hrun | exact Hev].
Defined.

Lemma shutdown_error_dropped_witness :
  let w := database.sampleWorld (Some (ErrStore "disk full")) None false in
  (database.closeDatabases w).1 = database.Returned (Some (ErrStore "disk full")) ∧
  (database.closeDatabaseWorker w).1 = database.Returned tt.
Proof.
  intros w.
  destruct (shutdown_error_dropped w (ErrStore "disk full") (or_introl eq_refl))
    as (Hclose & Hworker & _).
  split; [exact Hclose | exact Hworker].
Defined.

(** * Further properties *)

(** ** Bytes and integers *)

Section MoreCodecBytes.

Lemma Z_of_byte_range b : 0 ≤ Z_of_byte b < 256.
Proof. unfold Z_of_byte. pose proof (Byte.to_N_bounded b). lia. Qed.

Lemma byte_of_Z_land v b : Z.land v 255 = Z_of_byte b → byte_of_Z v = b.
Proof.
  unfold byte_of_Z, Z_of_byte. intros ->.
  by rewrite N2Z.id, Byte.of_to_N.
Qed.

Lemma Z_of_byte_inj b1 b2 : Z_of_byte b1 = Z_of_byte b2 → b1 = b2.
Proof.
  unfold Z_of_byte. intros H. apply N2Z.inj in H.
  pose proof (Byte.of_to_N b1) as H1. rewrite H, Byte.of_to_N in H1. congruence.
Qed.

Lemma testbit_Z_of_byte_high b n : 8 ≤ n → Z.testbit (Z_of_byte b) n = false.
Proof.
  intros Hn. pose proof (Z_of_byte_range b).
  rewrite <- (Z.mod_small (Z_of_byte b) (2 ^ 8)) by (change (2 ^ 8) with 256; lia).
  apply Z.mod_pow2_bits_high. lia.
Qed.

(** The bits of a byte moved to position [k]. *)
Lemma byte_lane_testbit b k n :
  0 ≤ k → 0 ≤ n →
  Z.testbit (Z.shiftl (Z_of_byte b) k) n
  = (k <=? n) && (n <? k + 8) && Z.testbit (Z_of_byte b) (n - k).
Proof.
  intros Hk Hn. rewrite Z.shiftl_spec by lia.
  destruct (Z.leb_spec k n); [|by rewrite Z.testbit_neg_r by lia].
  destruct (Z.ltb_spec n (k + 8)); [done|].
  by rewrite testbit_Z_of_byte_high by lia.
Qed.

Ltac settle_cmp :=
  repeat match goal with
    | |- context [?a <=? ?b] =>
        first [ rewrite (proj2 (Z.leb_le a b)) by lia
              | rewrite (proj2 (Z.leb_gt a b)) by lia ]
    | |- context [?a <? ?b] =>
        first [ rewrite (proj2 (Z.ltb_lt a b)) by lia
              | rewrite (proj2 (Z.ltb_ge a b)) by lia ]
    end.

(** The bits of the integer that [Uint64] assembles. *)
Lemma Uint64_testbit (b : bytes) n :
  0 ≤ n →
  Z.testbit (Uint64 b) n
  = (n <? 64) && Z.testbit (Z_of_byte (default x00 (b !! Z.to_nat (n / 8)))) (n mod 8).
Proof.
  intros Hn. unfold Uint64. cbv zeta.
  rewrite <- (Z.shiftl_0_r (Z_of_byte (default x00 (b !! 0%nat)))).
  rewrite !Z.lor_spec, !byte_lane_testbit by lia.
  destruct (Z.ltb_spec n 64) as [Hlt|Hge]; cbn [andb].
  2:{ settle_cmp. by rewrite ?andb_false_r. }
  assert (Hq : n = 8 * (n / 8) + n mod 8) by (apply Z.div_mod; lia).
  assert (Hr : 0 ≤ n mod 8 < 8) by (apply Z.mod_pos_bound; lia).
  assert (n / 8 = 0 ∨ n / 8 = 1 ∨ n / 8 = 2 ∨ n / 8 = 3 ∨ n / 8 = 4
          ∨ n / 8 = 5 ∨ n / 8 = 6 ∨ n / 8 = 7) as Hlane by lia.
  destruct Hlane as [E|[E|[E|[E|[E|[E|[E|E]]]]]]];
    match type of E with
    | _ = ?k => replace (n mod 8) with (n - 8 * k) by lia
    end;
    rewrite E; settle_cmp; cbn [andb orb]; rewrite ?orb_false_r; reflexivity.
Qed.

Lemma Uint64_range (b : bytes) : 0 ≤ Uint64 b < 2 ^ 64.
Proof.
  assert (H : Uint64 b = Uint64 b mod 2 ^ 64).
  { rewrite <- Z.land_ones by lia. apply Z.bits_inj'. intros n Hn.
    rewrite Z.land_spec, Uint64_testbit by done.
    destruct (Z.ltb_spec n 64); cbn [andb]; [|done].
    rewrite Z.ones_spec_low by lia. by rewrite andb_true_r. }
  rewrite H. apply Z.mod_pos_bound. lia.
Qed.

Lemma Uint64_lane (b : bytes) (i : nat) :
  (i < 8)%nat →
  byte_of_Z (Z.shiftr (Uint64 b) (8 * Z.of_nat i)) = default x00 (b !! i).
Proof.
  intros Hi. apply byte_of_Z_land. apply Z.bits_inj'. intros n Hn.
  rewrite Z.land_spec, Z.shiftr_spec, testbit_255, Uint64_testbit by lia.
  destruct (Z.ltb_spec n 8) as [Hlt|Hge].
  - replace ((n + 8 * Z.of_nat i) / 8) with (Z.of_nat i)
      by (apply Z.div_unique with n; lia).
    replace ((n + 8 * Z.of_nat i) mod 8) with n
      by (apply Z.mod_unique with (Z.of_nat i); lia).
    rewrite Nat2Z.id. settle_cmp. by rewrite andb_true_r.
  - rewrite andb_false_r. symmetry. apply testbit_Z_of_byte_high. lia.
Qed.

Lemma PutUint64_Uint64 (b : bytes) : length b = 8%nat → PutUint64 (Uint64 b) = b.
Proof.
  intros Hlen. unfold PutUint64.
  rewrite <- (Z.shiftr_0_r (Uint64 b)) at 1.
  change 0 with (8 * Z.of_nat 0) at 1.
  change 8 with (8 * Z.of_nat 1) at 2.
  change 16 with (8 * Z.of_nat 2).
  change 24 with (8 * Z.of_nat 3).
  change 32 with (8 * Z.of_nat 4).
  change 40 with (8 * Z.of_nat 5).
  change 48 with (8 * Z.of_nat 6).
  change 56 with (8 * Z.of_nat 7).
  rewrite !Uint64_lane by lia.
  do 8 (destruct b as [|? b]; [discriminate|]).
  destruct b; [reflexivity|discriminate].
Qed.

End MoreCodecBytes.

(** ** More on the codec *)

Section MoreCodec.
Variable P : byte.

(** [kvStorableLoad] by the shape of its input. *)
Lemma kvStorableLoad_cases t key value :
  kvStorableLoad t key value
  = match key with
    | [] => (t, Some (ErrReadCapacity 1 0))
    | [_] => (t, Some (ErrReadCapacity 2 1))
    | _ :: flag :: rest =>
        if decide (length rest < MilestoneIDLength)%nat
        then (t, Some (ErrReadCapacity 34 (length key)))
        else
          let t1 :=
            set_MilestoneID
              (copy (MilestoneID t) (take MilestoneIDLength rest)) t in
          if decide (length value < 8)%nat
          then (set_Amount 0 t1, Some (ErrReadCapacity 8 (length value)))
          else (set_Spent (bool_decide (flag = x01))
                  (set_Amount (Uint64 (take 8 value)) t1), None)
    end.
Proof.
  unfold kvStorableLoad, ReadBool, ReadByte, ReadUint64.
  destruct key as [|p [|flag rest]].
  - unfold ReadBytes. by rewrite decide_False by (cbn; lia).
  - rewrite ReadBytes_ok by (cbn; lia). cbn [NewBytes buf readOffset writeOffset].
    unfold ReadBytes. by rewrite decide_False by (cbn; lia).
  - do 2 (rewrite ReadBytes_ok by (cbn; lia);
          cbn [NewBytes buf readOffset writeOffset]).
    cbn [drop take head default Nat.add id]. cbv zeta.
    destruct (decide (length rest < MilestoneIDLength)%nat) as [Hshort|Hlong].
    + unfold ReadBytes at 1. cbn [buf readOffset length].
      by rewrite decide_False by (unfold MilestoneIDLength in *; lia).
    + rewrite ReadBytes_ok
        by (cbn [buf readOffset length]; unfold MilestoneIDLength in *; lia).
      cbn [buf readOffset writeOffset drop].
      destruct (decide (length value < 8)%nat) as [Hv|Hv].
      * unfold ReadBytes. cbn [NewBytes buf readOffset Nat.add].
        by rewrite decide_False by lia.
      * rewrite ReadBytes_ok by (cbn; lia).
        cbn [NewBytes buf readOffset]. by rewrite !drop_0.
Qed.

Lemma length_kvStorableKey t :
  length (MilestoneID t) = MilestoneIDLength → length (kvStorableKey P t) = 34%nat.
Proof. intros H. rewrite kvStorableKey_eq by done. cbn. by rewrite H. Qed.

Lemma length_kvStorableValue t : length (kvStorableValue t) = 8%nat.
Proof. reflexivity. Qed.

(** X1. For treasury outputs whose milestone id has its 32 bytes,
    [kvStorableKey] gives a 34-byte key that starts with the namespace
    byte and the spent flag (0 unspent, 1 spent); two keys are equal
    exactly when namespace, milestone id and spent flag are. *)
Theorem key_layout (P' : byte) (o1 o2 : TreasuryOutput) :
  length (MilestoneID o1) = MilestoneIDLength →
  length (MilestoneID o2) = MilestoneIDLength →
  length (kvStorableKey P o1) = 34%nat ∧
  [P; if Spent o1 then TreasuryOutputSpentPrefix else TreasuryOutputUnspentPrefix]
    `prefix_of` kvStorableKey P o1 ∧
  (kvStorableKey P o1 = kvStorableKey P' o2
   ↔ P = P' ∧ MilestoneID o1 = MilestoneID o2 ∧ Spent o1 = Spent o2).
Proof.
  intros H1 H2. split; [by apply length_kvStorableKey|].
  rewrite !kvStorableKey_eq by done. split.
  - by exists (MilestoneID o1).
  - split.
    + intros [= -> Hflag ->]. split; [done|]. split; [done|].
      by destruct (Spent o1), (Spent o2).
    + by intros (-> & -> & ->).
Qed.

(** X2. [kvStorableLoad] checks lengths before it reads: it succeeds
    exactly when the key has at least 34 bytes and the value at least 8.
    With a shorter key it returns the capacity error of the first read
    that falls short and leaves the receiver as it was; with a key long
    enough and a short value it returns the capacity error of the amount. *)
Theorem load_checks_lengths (t : TreasuryOutput) (key value : bytes) :
  ((kvStorableLoad t key value).2 = None
   ↔ (34 ≤ length key)%nat ∧ (8 ≤ length value)%nat) ∧
  ((length key < 34)%nat →
   kvStorableLoad t key value
   = (t, Some (ErrReadCapacity
                 (match length key with 0 => 1 | 1 => 2 | _ => 34 end)%nat
                 (length key)))) ∧
  ((34 ≤ length key)%nat → (length value < 8)%nat →
   (kvStorableLoad t key value).2 = Some (ErrReadCapacity 8 (length value))).
Proof.
  rewrite kvStorableLoad_cases. unfold MilestoneIDLength.
  destruct key as [|p [|flag rest]]; cbn [length].
  - split; [|split]; [split; [done|lia] | done | lia].
  - split; [|split]; [split; [done|lia] | done | lia].
  - cbv zeta.
    destruct (decide (length rest < 32)%nat); [|destruct (decide (length value < 8)%nat)];
      cbn [fst snd].
    + split; [|split]; [split; [done|lia] | done | lia].
    + split; [|split]; [split; [done|lia] | lia | done].
    + split; [|split]; [split; [intros _; lia|done] | lia | lia].
Qed.

(** X3. A successful [kvStorableLoad] into a receiver with a 32-byte id
    leaves a valid record: the milestone id is bytes 2..33 of the key, the
    spent flag says whether byte 1 of the key is 1, the amount is the
    little-endian integer of the first 8 bytes of the value and lies below
    2^64.  Bytes past the 34th of the key and the 8th of the value are
    ignored. *)
Theorem load_gives_valid_record (t : TreasuryOutput) (key value : bytes) :
  length (MilestoneID t) = MilestoneIDLength →
  (kvStorableLoad t key value).2 = None →
  let o := (kvStorableLoad t key value).1 in
  valid o ∧
  MilestoneID o = take 32 (drop 2 key) ∧
  Spent o = bool_decide (key !! 1%nat = Some x01) ∧
  Amount o = Uint64 (take 8 value).
Proof.
  intros Ht. rewrite kvStorableLoad_cases. unfold MilestoneIDLength in *.
  destruct key as [|p [|flag rest]]; [done|done|]. cbv zeta.
  destruct (decide (length rest < 32)%nat); [done|].
  destruct (decide (length value < 8)%nat); [done|]. intros _.
  cbn [fst snd set_Spent set_Amount set_MilestoneID MilestoneID Amount Spent drop].
  rewrite copy_full by (rewrite length_take; lia).
  split; [|split; [done|split; [|done]]].
  - split; simpl.
    + rewrite length_take. unfold MilestoneIDLength. lia.
    + apply Uint64_range.
  - simpl. apply bool_decide_ext. split; congruence.
Qed.

(** X4. Loading then encoding is the identity on canonical records: for
    a 34-byte key made of the namespace byte, a flag byte 0 or 1 and a
    32-byte id, and an 8-byte value, the load succeeds and the loaded
    record encodes back to the same key and value. *)
Theorem load_then_encode (t : TreasuryOutput) (spent : bool) (mid value : bytes) :
  length (MilestoneID t) = MilestoneIDLength →
  length mid = MilestoneIDLength →
  length value = 8%nat →
  let key := P :: (if spent then x01 else x00) :: mid in
  let o := (kvStorableLoad t key value).1 in
  (kvStorableLoad t key value).2 = None ∧
  kvStorableKey P o = key ∧
  kvStorableValue o = value.
Proof.
  intros Ht Hmid Hval key o. subst key o.
  rewrite kvStorableLoad_cases. cbv zeta.
  rewrite !decide_False by lia.
  rewrite (take_ge mid), (take_ge value) by lia.
  rewrite copy_full by congruence.
  cbn [fst snd]. split; [done|]. split.
  - rewrite kvStorableKey_eq by done. cbn. by destruct spent.
  - rewrite kvStorableValue_eq. cbn. by apply PutUint64_Uint64.
Qed.

(** X5. A failed load is not all-or-nothing: when the key is long enough
    but the value has fewer than 8 bytes, [kvStorableLoad] returns the
    capacity error and the receiver has already been given the milestone
    id of the key and the amount 0, its spent flag untouched. *)
Theorem load_short_value_overwrites (t : TreasuryOutput) (key value : bytes) :
  length (MilestoneID t) = MilestoneIDLength →
  (34 ≤ length key)%nat →
  (length value < 8)%nat →
  kvStorableLoad t key value
  = ({| MilestoneID := take 32 (drop 2 key); Amount := 0; Spent := Spent t |},
     Some (ErrReadCapacity 8 (length value))).
Proof.
  intros Ht Hkey Hval. rewrite kvStorableLoad_cases. unfold MilestoneIDLength in *.
  destruct key as [|p [|flag rest]]; cbn [length] in Hkey; [lia|lia|].
  cbv zeta. rewrite decide_False by lia. rewrite decide_True by lia.
  rewrite copy_full by (rewrite length_take; lia). done.
Qed.

End MoreCodec.

(** ** Adding, deleting and reading single outputs *)

Section PointOperations.
Import ext.
Variable P : byte.

Lemma AddTreasuryOutput_healthy to u :
  fault (utxoStorage u) = None →
  AddTreasuryOutput P to u
  = (None, managerOf (<[kvStorableKey P to := kvStorableValue to]> (content u))).
Proof. intros Hs. unfold AddTreasuryOutput, Set_, content. by rewrite Hs. Qed.

Lemma DeleteTreasuryOutput_healthy to u :
  fault (utxoStorage u) = None →
  DeleteTreasuryOutput P to u
  = (None, managerOf (delete (kvStorableKey P to) (content u))).
Proof. intros Hs. unfold DeleteTreasuryOutput, Delete, content. by rewrite Hs. Qed.

Lemma readUnspent_healthy u msHash :
  fault (utxoStorage u) = None →
  readUnspentTreasuryOutputWithoutLocking P u msHash
  = readAt u (P :: TreasuryOutputUnspentPrefix :: msHash).
Proof.
  intros Hs. unfold readUnspentTreasuryOutputWithoutLocking, readAt, Get, content.
  rewrite Hs. cbn [app]. by destruct (entries (utxoStorage u) !! _).
Qed.

Lemma readSpent_healthy u msHash :
  fault (utxoStorage u) = None →
  readSpentTreasuryOutputWithoutLocking P u msHash
  = readAt u (P :: TreasuryOutputSpentPrefix :: msHash).
Proof.
  intros Hs. unfold readSpentTreasuryOutputWithoutLocking, readAt, Get, content.
  rewrite Hs. cbn [app]. by destruct (entries (utxoStorage u) !! _).
Qed.

(** Reading the key of a valid output that holds its value gives it back. *)
Lemma readAt_encoded u o :
  valid o →
  content u !! kvStorableKey P o = Some (kvStorableValue o) →
  readAt u (kvStorableKey P o) = (Some o, None).
Proof.
  intros [Hid Hamt] Hget. unfold readAt. rewrite Hget.
  rewrite kvStorableKey_eq, kvStorableValue_eq by done.
  rewrite kvStorableLoad_wellformed by done. by destruct o.
Qed.

Lemma readAt_absent u key :
  content u !! key = None → readAt u key = (None, Some errKeyNotFound).
Proof. intros H. unfold readAt. by rewrite H. Qed.

Lemma readAt_agree u u' key :
  content u' !! key = content u !! key → readAt u' key = readAt u key.
Proof. intros H. unfold readAt. by rewrite H. Qed.

Lemma readOwn_healthy spent u msHash :
  fault (utxoStorage u) = None →
  readOwn P spent u msHash = readAt u (P :: (if spent then x01 else x00) :: msHash).
Proof.
  intros Hs. unfold readOwn.
  destruct spent; [by apply readSpent_healthy | by apply readUnspent_healthy].
Qed.

Lemma own_key_ne o spent msHash :
  length (MilestoneID o) = MilestoneIDLength →
  spent ≠ Spent o ∨ msHash ≠ MilestoneID o →
  kvStorableKey P o ≠ P :: (if spent then x01 else x00) :: msHash.
Proof.
  intros Hid Hne. rewrite kvStorableKey_eq by done.
  intros [= Hflag Hmid]. destruct Hne as [Hne|Hne]; [|done].
  by destruct spent, (Spent o).
Qed.

(** X6. After [AddTreasuryOutput] of a valid output on a healthy store,
    the point read for its spent flag and milestone id returns that
    output, and reads for any other flag or milestone id answer as
    before. *)
Theorem add_then_read (to : TreasuryOutput) (u : Manager) :
  valid to →
  fault (utxoStorage u) = None →
  let u' := (AddTreasuryOutput P to u).2 in
  (AddTreasuryOutput P to u).1 = None ∧
  fault (utxoStorage u') = None ∧
  readOwn P (Spent to) u' (MilestoneID to) = (Some to, None) ∧
  (∀ spent msHash,
     spent ≠ Spent to ∨ msHash ≠ MilestoneID to →
     readOwn P spent u' msHash = readOwn P spent u msHash).
Proof.
  intros Hvalid Hs. rewrite AddTreasuryOutput_healthy by done. cbn [fst snd].
  split; [done|]. split; [done|]. split.
  - rewrite readOwn_healthy by done.
    rewrite <- kvStorableKey_eq by apply Hvalid.
    apply readAt_encoded; [done|]. apply lookup_insert_eq.
  - intros spent msHash Hne. rewrite !readOwn_healthy by done.
    apply readAt_agree. apply lookup_insert_ne, own_key_ne; [apply Hvalid|done].
Qed.

(** X7. After [DeleteTreasuryOutput] on a healthy store, the point read
    for the deleted output's flag and milestone id reports that the key is
    not found, and reads for any other flag or milestone id answer as
    before. *)
Theorem delete_then_read (to : TreasuryOutput) (u : Manager) :
  length (MilestoneID to) = MilestoneIDLength →
  fault (utxoStorage u) = None →
  let u' := (DeleteTreasuryOutput P to u).2 in
  (DeleteTreasuryOutput P to u).1 = None ∧
  fault (utxoStorage u') = None ∧
  readOwn P (Spent to) u' (MilestoneID to) = (None, Some errKeyNotFound) ∧
  (∀ spent msHash,
     spent ≠ Spent to ∨ msHash ≠ MilestoneID to →
     readOwn P spent u' msHash = readOwn P spent u msHash).
Proof.
  intros Hid Hs. rewrite DeleteTreasuryOutput_healthy by done. cbn [fst snd].
  split; [done|]. split; [done|]. split.
  - rewrite readOwn_healthy by done.
    rewrite <- kvStorableKey_eq by done.
    apply readAt_absent. apply lookup_delete_eq.
  - intros spent msHash Hne. rewrite !readOwn_healthy by done.
    apply readAt_agree. apply lookup_delete_ne, own_key_ne; done.
Qed.

(** X8. What a point read returns on a healthy store, by what is stored
    under the key made of namespace, flag and [msHash]: nothing stored, the
    store's not-found error; a hash of fewer than 32 bytes, the capacity
    error of the id; a value of fewer than 8 bytes, the capacity error of
    the amount; otherwise the record with the first 32 bytes of the hash,
    the integer of the first 8 bytes of the value and the flag of the
    reader. *)
Theorem read_outcomes (spent : bool) (u : Manager) (msHash : bytes) :
  fault (utxoStorage u) = None →
  let key := P :: (if spent then x01 else x00) :: msHash in
  match content u !! key with
  | None => readOwn P spent u msHash = (None, Some errKeyNotFound)
  | Some v =>
      if decide (length msHash < 32)%nat
      then readOwn P spent u msHash
           = (None, Some (ErrReadCapacity 34 (2 + length msHash)))
      else if decide (length v < 8)%nat
      then readOwn P spent u msHash = (None, Some (ErrReadCapacity 8 (length v)))
      else readOwn P spent u msHash
           = (Some {| MilestoneID := take 32 msHash;
                      Amount := Uint64 (take 8 v);
                      Spent := spent |}, None)
  end.
Proof.
  intros Hs key. rewrite readOwn_healthy by done. fold key.
  unfold readAt. destruct (content u !! key) as [v|]; [|done].
  subst key. rewrite kvStorableLoad_cases. unfold MilestoneIDLength. cbv zeta.
  destruct (decide (length msHash < 32)%nat); [done|].
  destruct (decide (length v < 8)%nat); [done|].
  unfold zero, MilestoneIDLength. cbn [set_MilestoneID set_Amount set_Spent MilestoneID Amount Spent].
  rewrite copy_full by (rewrite length_replicate, length_take; lia).
  by destruct spent.
Qed.


End PointOperations.

(** ** Batches *)

Section Batches.
Import ext.
Variable P : byte.

Lemma Commit_healthy q s :
  fault s = None →
  Commit q s = (None, {| entries := foldl apply_mutation (entries s) q; fault := None |}).
Proof. intros Hs. unfold Commit. by rewrite Hs. Qed.

Lemma markTreasuryOutputAsSpent_queue (o : TreasuryOutput) (q : list Mutation) :
  (markTreasuryOutputAsSpent P o q).2
  = (None, q ++ [MutDelete (kvStorableKey P (set_Spent false o));
                 MutSet (kvStorableKey P (set_Spent true o)) (kvStorableValue o)]).
Proof. cbn. by rewrite <- app_assoc. Qed.

Lemma markTreasuryOutputAsUnspent_queue (o : TreasuryOutput) (q : list Mutation) :
  (markTreasuryOutputAsUnspent P o q).2
  = (None, q ++ [MutDelete (kvStorableKey P (set_Spent true o));
                 MutSet (kvStorableKey P (set_Spent false o)) (kvStorableValue o)]).
Proof. cbn. by rewrite <- app_assoc. Qed.

Lemma valid_set_Spent b o : valid o → valid (set_Spent b o).
Proof. by intros [? ?]. Qed.

(** The store after the batch of a mark operation is committed. *)
Lemma Commit_mark_spent o q s :
  fault s = None →
  Commit (markTreasuryOutputAsSpent P o q).2.2 s
  = (None, {| entries := <[kvStorableKey P (set_Spent true o) := kvStorableValue o]>
                           (delete (kvStorableKey P (set_Spent false o))
                              (foldl apply_mutation (entries s) q));
              fault := None |}).
Proof.
  intros Hs. rewrite markTreasuryOutputAsSpent_queue. cbn [snd].
  rewrite Commit_healthy, foldl_app by done. done.
Qed.

Lemma Commit_mark_unspent o q s :
  fault s = None →
  Commit (markTreasuryOutputAsUnspent P o q).2.2 s
  = (None, {| entries := <[kvStorableKey P (set_Spent false o) := kvStorableValue o]>
                           (delete (kvStorableKey P (set_Spent true o))
                              (foldl apply_mutation (entries s) q));
              fault := None |}).
Proof.
  intros Hs. rewrite markTreasuryOutputAsUnspent_queue. cbn [snd].
  rewrite Commit_healthy, foldl_app by done. done.
Qed.

(** X9. Queuing [storeTreasuryOutput] (resp. [deleteTreasuryOutput]) on
    an empty batch succeeds, and committing that batch to a healthy store
    leaves the store [AddTreasuryOutput] (resp. [DeleteTreasuryOutput])
    leaves. *)
Theorem batch_agrees_with_direct (o : TreasuryOutput) (u : Manager) :
  fault (utxoStorage u) = None →
  (storeTreasuryOutput P o ([] : list Mutation)).1 = None ∧
  (deleteTreasuryOutput P o ([] : list Mutation)).1 = None ∧
  Commit (storeTreasuryOutput P o []).2 (utxoStorage u)
  = (None, utxoStorage (AddTreasuryOutput P o u).2) ∧
  Commit (deleteTreasuryOutput P o []).2 (utxoStorage u)
  = (None, utxoStorage (DeleteTreasuryOutput P o u).2).
Proof.
  intros Hs. split; [done|]. split; [done|].
  unfold storeTreasuryOutput, deleteTreasuryOutput, AddTreasuryOutput,
    DeleteTreasuryOutput, Set_, Delete.
  cbn [batch_Set batch_Delete queue_batch snd app].
  rewrite !Commit_healthy by done. rewrite Hs. done.
Qed.

(** X10. After the batch of [markTreasuryOutputAsSpent] for a valid
    output is committed to a healthy store, the unspent read of its
    milestone id reports key not found and the spent read returns the
    output with [Spent = true]; symmetrically for
    [markTreasuryOutputAsUnspent]. *)
Theorem mark_then_read (o : TreasuryOutput) (q : list Mutation) (u : Manager) :
  valid o →
  fault (utxoStorage u) = None →
  (∃ s', Commit (markTreasuryOutputAsSpent P o q).2.2 (utxoStorage u) = (None, s') ∧
         let u' := {| utxoStorage := s' |} in
         readUnspentTreasuryOutputWithoutLocking P u' (MilestoneID o)
           = (None, Some errKeyNotFound) ∧
         readSpentTreasuryOutputWithoutLocking P u' (MilestoneID o)
           = (Some (set_Spent true o), None)) ∧
  (∃ s', Commit (markTreasuryOutputAsUnspent P o q).2.2 (utxoStorage u) = (None, s') ∧
         let u' := {| utxoStorage := s' |} in
         readSpentTreasuryOutputWithoutLocking P u' (MilestoneID o)
           = (None, Some errKeyNotFound) ∧
         readUnspentTreasuryOutputWithoutLocking P u' (MilestoneID o)
           = (Some (set_Spent false o), None)).
Proof.
  intros Hvalid Hs.
  pose proof (kvStorableKey_spent_ne P o) as Hne.
  assert (Hk0 : P :: TreasuryOutputUnspentPrefix :: MilestoneID o
                 = kvStorableKey P (set_Spent false o))
    by (by rewrite kvStorableKey_eq by apply Hvalid).
  assert (Hk1 : P :: TreasuryOutputSpentPrefix :: MilestoneID o
                 = kvStorableKey P (set_Spent true o))
    by (by rewrite kvStorableKey_eq by apply Hvalid).
  split.
  - eexists. split; [by apply Commit_mark_spent|]. cbv zeta.
    rewrite readUnspent_healthy, readSpent_healthy by done.
    rewrite Hk0, Hk1. split.
    + apply readAt_absent. unfold content. cbn [utxoStorage entries].
      by rewrite lookup_insert_ne, lookup_delete_eq.
    + apply readAt_encoded; [by apply valid_set_Spent|].
      unfold content. cbn [utxoStorage entries]. by rewrite lookup_insert_eq.
  - eexists. split; [by apply Commit_mark_unspent|]. cbv zeta.
    rewrite readUnspent_healthy, readSpent_healthy by done.
    rewrite Hk0, Hk1. split.
    + apply readAt_absent. unfold content. cbn [utxoStorage entries].
      by rewrite lookup_insert_ne, lookup_delete_eq.
    + apply readAt_encoded; [by apply valid_set_Spent|].
      unfold content. cbn [utxoStorage entries]. by rewrite lookup_insert_eq.
Qed.

(** X11. On a healthy store that holds the output under its unspent key
    and nothing under its spent key, marking it spent and then unspent, in
    one batch or in two, gives back the very same store; and marking it
    spent twice gives the store that marking it once gives. *)
Theorem mark_spent_then_unspent_restores (o : TreasuryOutput) (s : KVStore) :
  fault s = None →
  entries s !! kvStorableKey P (set_Spent false o) = Some (kvStorableValue o) →
  entries s !! kvStorableKey P (set_Spent true o) = None →
  let spend := (markTreasuryOutputAsSpent P o ([] : list Mutation)).2.2 in
  let unspend := (markTreasuryOutputAsUnspent P o ([] : list Mutation)).2.2 in
  (* one batch holding both marks, or two batches one after the other *)
  Commit (markTreasuryOutputAsUnspent P o spend).2.2 s = (None, s) ∧
  (∃ s1, Commit spend s = (None, s1) ∧ Commit unspend s1 = (None, s)) ∧
  (* marking as spent twice is marking once *)
  Commit (markTreasuryOutputAsSpent P o spend).2.2 s = Commit spend s.
Proof.
  intros Hs Hu Hsp spend unspend. subst spend unspend.
  pose proof (kvStorableKey_spent_ne P o) as Hne.
  set (uk := kvStorableKey P (set_Spent false o)) in *.
  set (sk := kvStorableKey P (set_Spent true o)) in *.
  set (v := kvStorableValue o) in *.
  assert (Hback : <[uk := v]> (delete sk (<[sk := v]> (delete uk (entries s))))
                  = entries s).
  { apply map_eq. intros k.
    destruct (decide (k = uk)) as [->|Huk]; [by rewrite lookup_insert_eq|].
    rewrite lookup_insert_ne by done.
    destruct (decide (k = sk)) as [->|Hsk]; [by rewrite lookup_delete_eq|].
    by rewrite lookup_delete_ne, lookup_insert_ne, lookup_delete_ne. }
  assert (Hagain : <[sk := v]> (delete uk (<[sk := v]> (delete uk (entries s))))
                   = <[sk := v]> (delete uk (entries s))).
  { apply map_eq. intros k.
    destruct (decide (k = sk)) as [->|Hsk]; [by rewrite !lookup_insert_eq|].
    rewrite !lookup_insert_ne by done.
    destruct (decide (k = uk)) as [->|Huk]; [by rewrite !lookup_delete_eq|].
    by rewrite !lookup_delete_ne, lookup_insert_ne, lookup_delete_ne. }
  split; [|split].
  - rewrite Commit_mark_unspent by done.
    rewrite markTreasuryOutputAsSpent_queue. cbn [snd app foldl apply_mutation].
    fold uk sk v. rewrite Hback. destruct s as [m f]; cbn in *; by subst.
  - eexists. split; [by apply Commit_mark_spent|].
    rewrite Commit_mark_unspent by done. cbn [foldl entries]. fold uk sk v.
    rewrite Hback. destruct s as [m f]; cbn in *; by subst.
  - rewrite !Commit_mark_spent by done.
    rewrite markTreasuryOutputAsSpent_queue. cbn [snd app foldl apply_mutation].
    fold uk sk v. by rewrite Hagain.
Qed.

Lemma wellFormed_insert m o :
  wellFormed P m → valid o →
  wellFormed P (<[kvStorableKey P o := kvStorableValue o]> m).
Proof.
  intros Hm Ho k v Hkv Hpre.
  destruct (decide (k = kvStorableKey P o)) as [->|Hne].
  - rewrite lookup_insert_eq in Hkv. injection Hkv as <-. by exists o.
  - rewrite lookup_insert_ne in Hkv by done. by apply Hm.
Qed.

Lemma wellFormed_delete m key : wellFormed P m → wellFormed P (delete key m).
Proof.
  intros Hm k v Hkv Hpre.
  destruct (decide (k = key)) as [->|Hne].
  - by rewrite lookup_delete_eq in Hkv.
  - rewrite lookup_delete_ne in Hkv by done. by apply Hm.
Qed.

(** X12. Well-formedness is kept: if every record of the treasury
    namespace of a healthy store encodes a valid output, it still does
    after [AddTreasuryOutput] or [DeleteTreasuryOutput] of a valid output
    and after committing the batch of [storeTreasuryOutput],
    [deleteTreasuryOutput], [markTreasuryOutputAsSpent] or
    [markTreasuryOutputAsUnspent] for it. *)
Theorem well_formed_preserved (o : TreasuryOutput) (u : Manager) :
  valid o →
  fault (utxoStorage u) = None →
  wellFormed P (content u) →
  wellFormed P (content (AddTreasuryOutput P o u).2) ∧
  wellFormed P (content (DeleteTreasuryOutput P o u).2) ∧
  wellFormed P (entries (Commit (storeTreasuryOutput P o []).2 (utxoStorage u)).2) ∧
  wellFormed P (entries (Commit (deleteTreasuryOutput P o []).2 (utxoStorage u)).2) ∧
  wellFormed P (entries (Commit (markTreasuryOutputAsSpent P o []).2.2 (utxoStorage u)).2) ∧
  wellFormed P (entries (Commit (markTreasuryOutputAsUnspent P o []).2.2 (utxoStorage u)).2).
Proof.
  intros Ho Hs Hm. unfold content in *.
  rewrite AddTreasuryOutput_healthy, DeleteTreasuryOutput_healthy by done.
  rewrite Commit_mark_spent, Commit_mark_unspent by done.
  unfold storeTreasuryOutput, deleteTreasuryOutput.
  cbn [batch_Set batch_Delete queue_batch snd app].
  rewrite !Commit_healthy by done.
  cbn [snd fst entries utxoStorage managerOf foldl apply_mutation]. unfold content.
  repeat split.
  - by apply wellFormed_insert.
  - by apply wellFormed_delete.
  - by apply wellFormed_insert.
  - by apply wellFormed_delete.
  - apply (wellFormed_insert _ (set_Spent true o));
      [by apply wellFormed_delete | by apply valid_set_Spent].
  - apply (wellFormed_insert _ (set_Spent false o));
      [by apply wellFormed_delete | by apply valid_set_Spent].
Qed.

End Batches.

(** ** Iterating over well-formed stores *)

Section WellFormedStores.
Import ext.
Variable P : byte.

Lemma decode_encoded o : valid o → decode (encode P o) = (o, None).
Proof.
  intros [Hid Hamt]. unfold decode, encode. cbn [fst snd].
  rewrite kvStorableKey_eq, kvStorableValue_eq by done.
  rewrite kvStorableLoad_wellformed by done. by destruct o.
Qed.

Lemma wellFormed_partition prefix u kv :
  wellFormed P (content u) →
  [P] `prefix_of` prefix →
  kv ∈ partition prefix (utxoStorage u) →
  ∃ o, valid o ∧ kv = encode P o ∧
       content u !! kvStorableKey P o = Some (kvStorableValue o).
Proof.
  intros Hm Hpre Hin. destruct kv as [k v].
  apply elem_of_partition in Hin as [Hkv Hk].
  destruct (Hm k v Hkv) as (o & Ho & -> & ->); [by etrans|].
  by exists o.
Qed.

Lemma wellFormed_decodes prefix u :
  wellFormed P (content u) →
  [P] `prefix_of` prefix →
  Forall decodes (partition prefix (utxoStorage u)).
Proof.
  intros Hm Hpre. apply Forall_forall. intros kv Hin.
  destruct (wellFormed_partition prefix u kv Hm Hpre Hin) as (o & Ho & -> & _).
  unfold decodes. by rewrite decode_encoded.
Qed.

Lemma wellFormed_empty : wellFormed P ∅.
Proof. intros k v Hkv. by rewrite lookup_empty in Hkv. Qed.

Lemma wellFormed_encoded m o :
  wellFormed P m → valid o →
  wellFormed P (<[(encode P o).1 := (encode P o).2]> m).
Proof.
  intros Hm Ho k v Hkv Hpre.
  destruct (decide (k = (encode P o).1)) as [->|Hne].
  - rewrite lookup_insert_eq in Hkv. injection Hkv as <-. by exists o.
  - rewrite lookup_insert_ne in Hkv by done. by apply Hm.
Qed.

Lemma prefix_treasury : [P] `prefix_of` [P].
Proof. done. Qed.
Lemma prefix_spent : [P] `prefix_of` [P; TreasuryOutputSpentPrefix].
Proof. by exists [TreasuryOutputSpentPrefix]. Qed.
Lemma prefix_unspent : [P] `prefix_of` [P; TreasuryOutputUnspentPrefix].
Proof. by exists [TreasuryOutputUnspentPrefix]. Qed.

(** The flag of an output stored in one of the two partitions. *)
Lemma encoded_flag o (flag : byte) :
  length (MilestoneID o) = MilestoneIDLength →
  [P; flag] `prefix_of` kvStorableKey P o →
  flag = if Spent o then x01 else x00.
Proof.
  intros Hid [rest Hrest]. rewrite kvStorableKey_eq in Hrest by done.
  by injection Hrest.
Qed.

Section Walk.
Context {C : Type}.
Variable opt : IterateOptions.
Variable consumer : TreasuryOutputConsumer C.

(** Records that decode never leave an error behind, bound or no bound. *)
Lemma visit_forEach_no_error l (st : forEachScan C) :
  Forall decodes l →
  fe_innerErr (visit (forEachCallback opt consumer) l st) = fe_innerErr st.
Proof.
  intros Hl. revert st.
  induction Hl as [|[k v] l Hkv Hl IH]; intros st; [done|].
  cbn [visit].
  destruct (decide (maxResultCount opt ≤ 0 ∨ fe_i st < maxResultCount opt))
    as [Hopen|Hreached].
  - rewrite forEachCallback_decoded by done.
    destruct (consumer _ (fe_consumer st)) as [continue c'].
    destruct continue; [|done]. by rewrite IH.
  - unfold forEachCallback. by rewrite bound_reached by lia.
Qed.

(** With a positive bound, exactly the first records are handed on. *)
Lemma visit_forEach_take l (st : forEachScan C) :
  0 < maxResultCount opt →
  Forall decodes l →
  fe_consumer (visit (forEachCallback opt consumer) l st)
  = (feed consumer
       (decoded (take (Z.to_nat (maxResultCount opt - fe_i st)) l))
       (fe_consumer st)).2.
Proof.
  intros Hpos Hl. revert st.
  induction Hl as [|[k v] l Hkv Hl IH]; intros st.
  - by rewrite take_nil.
  - cbn [visit].
    destruct (decide (fe_i st < maxResultCount opt)) as [Hopen|Hreached].
    + rewrite forEachCallback_decoded by (done || lia).
      replace (Z.to_nat (maxResultCount opt - fe_i st))
        with (S (Z.to_nat (maxResultCount opt - (fe_i st + 1)))) by lia.
      cbn [take decoded fmap list_fmap feed].
      destruct (consumer _ (fe_consumer st)) as [continue c'].
      destruct continue; [|done].
      by rewrite IH.
    + unfold forEachCallback. rewrite bound_reached by lia.
      replace (Z.to_nat (maxResultCount opt - fe_i st)) with 0%nat by lia.
      done.
Qed.

(** What the consumer has been handed is an initial segment of the
    decoded records. *)
Lemma visit_recording_prefix l (st : forEachScan (C * list TreasuryOutput)) :
  Forall decodes l →
  ∃ n, (fe_consumer (visit (forEachCallback opt (recording consumer)) l st)).2
       = (fe_consumer st).2 ++ take n (decoded l).
Proof.
  intros Hl. revert st.
  induction Hl as [|[k v] l Hkv Hl IH]; intros st.
  - exists 0%nat. cbn. by rewrite app_nil_r.
  - cbn [visit].
    destruct (decide (maxResultCount opt ≤ 0 ∨ fe_i st < maxResultCount opt))
      as [Hopen|Hreached].
    + rewrite forEachCallback_decoded by done. unfold recording at 1.
      destruct (consumer _ (fe_consumer st).1) as [continue c'].
      destruct continue.
      * destruct (IH {| fe_i := fe_i st + 1; fe_innerErr := fe_innerErr st;
                        fe_consumer := (c', (fe_consumer st).2 ++ [(decode (k, v)).1]) |})
          as [n Hn].
        exists (S n). rewrite Hn. cbn. by rewrite <- app_assoc.
      * exists 1%nat. cbn. by rewrite take_0.
    + unfold forEachCallback. rewrite bound_reached by lia.
      exists 0%nat. cbn. by rewrite app_nil_r.
Qed.

End Walk.

End WellFormedStores.

Section WellFormedTheorems.
Import ext.
Variable P : byte.
Context {C : Type}.
Variable consumer : TreasuryOutputConsumer C.
Variable opt : IterateOptions.
Variable u : Manager.

(** X13. On a healthy store whose treasury namespace is well formed, no
    query fails to decode: [ForEachTreasuryOutput] and
    [ForEachSpentTreasuryOutput] return no error for any consumer and
    options, and [UnspentTreasuryOutput] returns either the one stored
    unspent output (valid, [Spent = false]), or "no treasury output
    exists" when there is none, or "more than one unspent treasury output
    exists" when there are at least two. *)
Theorem well_formed_never_fails_to_decode (c : C) :
  fault (utxoStorage u) = None →
  wellFormed P (content u) →
  (ForEachTreasuryOutput P consumer opt u c).1 = None ∧
  (ForEachSpentTreasuryOutput P consumer opt u c).1 = None ∧
  match UnspentTreasuryOutput P u with
  | (Some o, None) =>
      valid o ∧ Spent o = false ∧
      unspentPartition P u = [encode P o] ∧
      content u !! kvStorableKey P o = Some (kvStorableValue o)
  | (None, Some err) =>
      (err = errNoTreasuryOutput ∧ unspentPartition P u = []) ∨
      (err = errMoreThanOne ∧ (2 ≤ length (unspentPartition P u))%nat)
  | _ => False
  end.
Proof.
  intros Hs Hm. split; [|split].
  - rewrite ForEachTreasuryOutput_healthy by done. cbv zeta. cbn [fst].
    rewrite visit_forEach_no_error; [done|].
    apply (wellFormed_decodes P); [done|apply prefix_treasury].
  - rewrite ForEachSpentTreasuryOutput_healthy by done. cbv zeta. cbn [fst].
    rewrite visit_forEach_no_error; [done|].
    apply (wellFormed_decodes P); [done|apply prefix_spent].
  - pose proof (wellFormed_decodes P _ u Hm (prefix_unspent P)) as Hdec.
    rewrite UnspentTreasuryOutput_all_decode by done.
    fold (unspentPartition P u) in Hdec.
    destruct (unspentPartition P u) as [|kv [|kv' l]] eqn:Hl.
    + by left.
    + destruct (wellFormed_partition P [P; TreasuryOutputUnspentPrefix] u kv Hm
                  (prefix_unspent P)) as (o & Ho & -> & Hget).
      { fold (unspentPartition P u). rewrite Hl. by left. }
      rewrite decode_encoded by done. cbn [fst].
      split; [done|]. split; [|done].
      assert (Hin : encode P o ∈ partition [P; TreasuryOutputUnspentPrefix] (utxoStorage u)).
      { fold (unspentPartition P u). rewrite Hl. by left. }
      apply elem_of_partition in Hin as [_ Hpre].
      apply (encoded_flag P o) in Hpre; [|apply Ho].
      by destruct (Spent o).
    + right. split; [done|]. cbn. lia.
Qed.

(** The outputs handed to a recording consumer, on a store whose records
    of the iterated partition all decode. *)
Lemma fed_prefix prefix (c : C) :
  fault (utxoStorage u) = None →
  Forall decodes (partition prefix (utxoStorage u)) →
  ∃ n, (fe_consumer
          (Iterate (utxoStorage u) prefix (forEachCallback opt (recording consumer))
             {| fe_i := 0; fe_innerErr := None; fe_consumer := (c, []) |}).2).2
       = take n (decoded (partition prefix (utxoStorage u))).
Proof.
  intros Hs Hdec. rewrite Iterate_healthy by done. cbn [snd].
  destruct (visit_recording_prefix opt consumer _
              {| fe_i := 0; fe_innerErr := None; fe_consumer := (c, []) |} Hdec)
    as [n Hn].
  exists n. by rewrite Hn.
Qed.

Lemma decoded_well_formed prefix o :
  wellFormed P (content u) →
  [P] `prefix_of` prefix →
  o ∈ decoded (partition prefix (utxoStorage u)) →
  valid o ∧ encode P o ∈ partition prefix (utxoStorage u) ∧
  content u !! kvStorableKey P o = Some (kvStorableValue o).
Proof.
  intros Hm Hpre Hin. unfold decoded in Hin.
  apply list_elem_of_fmap in Hin as (kv & -> & Hkv).
  destruct (wellFormed_partition P prefix u kv Hm Hpre Hkv) as (o & Ho & -> & Hget).
  rewrite decode_encoded by done. done.
Qed.

Lemma NoDup_decoded prefix :
  wellFormed P (content u) →
  [P] `prefix_of` prefix →
  NoDup (decoded (partition prefix (utxoStorage u))).
Proof.
  intros Hm Hpre. unfold decoded.
  apply NoDup_fmap_2_strong; [|apply NoDup_partition].
  intros kv1 kv2 H1 H2 Heq.
  destruct (wellFormed_partition P prefix u kv1 Hm Hpre H1) as (o1 & Ho1 & -> & _).
  destruct (wellFormed_partition P prefix u kv2 Hm Hpre H2) as (o2 & Ho2 & -> & _).
  rewrite !decode_encoded in Heq by done. cbn in Heq. by subst.
Qed.

(** X19. On a healthy well-formed store, whatever the consumer and the
    options, the outputs handed over by [ForEachTreasuryOutput] and by
    [ForEachSpentTreasuryOutput] are pairwise distinct, valid, and stored
    (their key holds their value); those handed over by
    [ForEachSpentTreasuryOutput] all have [Spent = true]. *)
Theorem fed_outputs_are_stored (c : C) :
  fault (utxoStorage u) = None →
  wellFormed P (content u) →
  let fedAll := (ForEachTreasuryOutput P (recording consumer) opt u (c, [])).2.2 in
  let fedSpent := (ForEachSpentTreasuryOutput P (recording consumer) opt u (c, [])).2.2 in
  NoDup fedAll ∧ NoDup fedSpent ∧
  (∀ o, o ∈ fedAll →
        valid o ∧ content u !! kvStorableKey P o = Some (kvStorableValue o)) ∧
  (∀ o, o ∈ fedSpent →
        valid o ∧ Spent o = true ∧
        content u !! kvStorableKey P o = Some (kvStorableValue o)).
Proof.
  intros Hs Hm.
  pose proof (wellFormed_decodes P _ u Hm (prefix_treasury P)) as Hdec1.
  pose proof (wellFormed_decodes P _ u Hm (prefix_spent P)) as Hdec2.
  destruct (fed_prefix [P] c Hs Hdec1) as [n1 Hn1].
  destruct (fed_prefix [P; TreasuryOutputSpentPrefix] c Hs Hdec2) as [n2 Hn2].
  assert (H1 : (ForEachTreasuryOutput P (recording consumer) opt u (c, [])).2.2
               = take n1 (decoded (partition [P] (utxoStorage u)))).
  { rewrite <- Hn1. unfold ForEachTreasuryOutput.
    by destruct (Iterate (utxoStorage u) [P] _ _) as [[?|] ?]. }
  assert (H2 : (ForEachSpentTreasuryOutput P (recording consumer) opt u (c, [])).2.2
               = take n2 (decoded (partition [P; TreasuryOutputSpentPrefix] (utxoStorage u)))).
  { rewrite <- Hn2. unfold ForEachSpentTreasuryOutput.
    by destruct (Iterate (utxoStorage u) [P; TreasuryOutputSpentPrefix] _ _)
         as [[?|] ?]. }
  cbv zeta. rewrite H1, H2.
  split; [|split; [|split]].
  - eapply sublist_NoDup; [|apply sublist_take].
    apply NoDup_decoded; [done|apply prefix_treasury].
  - eapply sublist_NoDup; [|apply sublist_take].
    apply NoDup_decoded; [done|apply prefix_spent].
  - intros o Ho. apply elem_of_take in Ho as (i & Ho%list_elem_of_lookup_2 & _).
    destruct (decoded_well_formed [P] o Hm (prefix_treasury P)) as (? & _ & ?); done.
  - intros o Ho. apply elem_of_take in Ho as (i & Ho%list_elem_of_lookup_2 & _).
    destruct (decoded_well_formed [P; TreasuryOutputSpentPrefix] o Hm (prefix_spent P))
      as (Hvalid & Hin & Hget); [done|].
    split; [done|]. split; [|done].
    apply elem_of_partition in Hin as [_ Hpre].
    apply (encoded_flag P o) in Hpre; [|apply Hvalid].
    by destruct (Spent o).
Qed.

(** X16. With [maxResultCount = N > 0] on a healthy store whose records
    of the iterated partition decode, [ForEachTreasuryOutput] and
    [ForEachSpentTreasuryOutput] return no error and hand the consumer the
    first N records of the partition, decoded and in order, for as long as
    it asks for more. *)
Theorem positive_bound_feeds_first_records (c : C) :
  0 < maxResultCount opt →
  fault (utxoStorage u) = None →
  let n := Z.to_nat (maxResultCount opt) in
  (Forall decodes (treasuryPartition P u) →
   ForEachTreasuryOutput P consumer opt u c
   = (None, (feed consumer (decoded (take n (treasuryPartition P u))) c).2)) ∧
  (Forall decodes (spentPartition P u) →
   ForEachSpentTreasuryOutput P consumer opt u c
   = (None, (feed consumer (decoded (take n (spentPartition P u))) c).2)).
Proof.
  intros Hpos Hs n. split; intros Hdec.
  - rewrite ForEachTreasuryOutput_healthy by done. cbv zeta.
    rewrite visit_forEach_no_error, visit_forEach_take by done.
    cbn [fe_i fe_innerErr fe_consumer]. by rewrite Z.sub_0_r.
  - rewrite ForEachSpentTreasuryOutput_healthy by done. cbv zeta.
    rewrite visit_forEach_no_error, visit_forEach_take by done.
    cbn [fe_i fe_innerErr fe_consumer]. by rewrite Z.sub_0_r.
Qed.

End WellFormedTheorems.

(** ** The treasury output through its life *)

Section Lists.
Context {A : Type}.

Lemma singleton_elements (l : list A) x :
  NoDup l → (∀ y, y ∈ l ↔ y = x) → l = [x].
Proof.
  intros Hnd Hel. destruct l as [|y l].
  - by destruct (not_elem_of_nil x); apply Hel.
  - assert (y = x) as -> by (apply Hel; by left).
    apply NoDup_cons in Hnd as [Hx _]. f_equal.
    apply elem_of_nil_inv. intros z Hz.
    assert (z = x) as -> by (apply Hel; by right). done.
Qed.

Lemma two_elements (l : list A) x y : x ∈ l → y ∈ l → x ≠ y → (2 ≤ length l)%nat.
Proof.
  intros Hx Hy Hne. destruct l as [|a [|b l]]; cbn; [|exfalso|lia].
  - by apply not_elem_of_nil in Hx.
  - apply list_elem_of_singleton in Hx, Hy. congruence.
Qed.

End Lists.

Section Life.
Import ext.
Variable P : byte.

Lemma encode_in_unspent o m f :
  valid o → Spent o = false →
  m !! kvStorableKey P o = Some (kvStorableValue o) →
  encode P o ∈ partition [P; TreasuryOutputUnspentPrefix] {| entries := m; fault := f |}.
Proof.
  intros [Hid _] Hsp Hget. apply elem_of_partition. split; [done|].
  unfold encode. cbn [fst]. rewrite kvStorableKey_eq, Hsp by done.
  by exists (MilestoneID o).
Qed.

Lemma encode_in_spent o m f :
  valid o → Spent o = true →
  m !! kvStorableKey P o = Some (kvStorableValue o) →
  encode P o ∈ partition [P; TreasuryOutputSpentPrefix] {| entries := m; fault := f |}.
Proof.
  intros [Hid _] Hsp Hget. apply elem_of_partition. split; [done|].
  unfold encode. cbn [fst]. rewrite kvStorableKey_eq, Hsp by done.
  by exists (MilestoneID o).
Qed.

(** A key of one partition is not the key of an output with the other flag. *)
Lemma other_flag_key o (flag : byte) k :
  length (MilestoneID o) = MilestoneIDLength →
  [P; flag] `prefix_of` k →
  flag ≠ (if Spent o then x01 else x00) →
  k ≠ kvStorableKey P o.
Proof.
  intros Hid Hpre Hflag ->. by apply (encoded_flag P o flag Hid) in Hpre.
Qed.

(** X14. [AddTreasuryOutput] does not guard the singleton.  Adding a
    valid unspent output to a healthy store whose unspent partition is
    empty, or holds only a record under the same key, makes
    [UnspentTreasuryOutput] return it; adding it to a well-formed store
    that already holds an unspent record under another key makes
    [UnspentTreasuryOutput] fail with "more than one unspent treasury
    output exists". *)
Theorem add_unspent_then_query (o : TreasuryOutput) (u : Manager) :
  valid o →
  Spent o = false →
  fault (utxoStorage u) = None →
  let u' := (AddTreasuryOutput P o u).2 in
  ((∀ kv, kv ∈ unspentPartition P u → kv.1 = kvStorableKey P o) →
   UnspentTreasuryOutput P u' = (Some o, None)) ∧
  (wellFormed P (content u) →
   ∀ kv, kv ∈ unspentPartition P u → kv.1 ≠ kvStorableKey P o →
         UnspentTreasuryOutput P u' = (None, Some errMoreThanOne)).
Proof.
  intros Hvalid Hsp Hs. rewrite AddTreasuryOutput_healthy by done. cbn [snd].
  assert (Hnew : encode P o ∈ unspentPartition P
                   (managerOf (<[kvStorableKey P o := kvStorableValue o]> (content u)))).
  { apply encode_in_unspent; [done..|]. apply lookup_insert_eq. }
  split.
  - intros Hold.
    assert (Hpart : unspentPartition P
                      (managerOf (<[kvStorableKey P o := kvStorableValue o]> (content u)))
                    = [encode P o]).
    { apply singleton_elements; [apply NoDup_partition|].
      intros [k v]. split; [|by intros ->].
      intros Hin. apply elem_of_partition in Hin as [Hget Hpre]. cbn in Hget, Hpre.
      destruct (decide (k = kvStorableKey P o)) as [->|Hne].
      - rewrite lookup_insert_eq in Hget. by injection Hget as <-.
      - rewrite lookup_insert_ne in Hget by done.
        destruct Hne. apply (Hold (k, v)). by apply elem_of_partition. }
    rewrite UnspentTreasuryOutput_all_decode, Hpart; [|done|].
    + by rewrite decode_encoded.
    + rewrite Hpart. constructor; [|constructor].
      unfold decodes. by rewrite decode_encoded.
  - intros Hm [k v] Hin Hne. cbn [fst] in Hne.
    assert (Hold : (k, v) ∈ unspentPartition P
                     (managerOf (<[kvStorableKey P o := kvStorableValue o]> (content u)))).
    { apply elem_of_partition in Hin as [Hget Hpre].
      apply elem_of_partition. split; [|done]. cbn.
      by rewrite lookup_insert_ne. }
    assert (Hdiff : encode P o ≠ (k, v)) by (unfold encode; congruence).
    assert (Hlen := two_elements _ _ _ Hnew Hold Hdiff).
    rewrite UnspentTreasuryOutput_all_decode; [|done|].
    + destruct (unspentPartition P _) as [|? [|? ?]]; cbn in Hlen; [lia|lia|done].
    + apply (wellFormed_decodes P); [|apply prefix_unspent].
      by apply wellFormed_insert.
Qed.

(** X15. Spending the treasury output: on a healthy store whose unspent
    partition holds just the valid output [o] and whose spent partition is
    empty, [UnspentTreasuryOutput] returns [o]; once the batch of
    [markTreasuryOutputAsSpent] is committed, the unspent partition is
    empty, [UnspentTreasuryOutput] fails with "no treasury output exists",
    and [ForEachSpentTreasuryOutput] hands the consumer exactly [o] with
    [Spent = true], whatever the options. *)
Theorem spend_the_treasury_output {C} (consumer : TreasuryOutputConsumer C)
    (opt : IterateOptions) (c : C) (o : TreasuryOutput) (u : Manager) :
  valid o →
  Spent o = false →
  fault (utxoStorage u) = None →
  unspentPartition P u = [encode P o] →
  spentPartition P u = [] →
  UnspentTreasuryOutput P u = (Some o, None) ∧
  ∃ s',
    Commit (markTreasuryOutputAsSpent P o []).2.2 (utxoStorage u) = (None, s') ∧
    let u' := {| utxoStorage := s' |} in
    unspentPartition P u' = [] ∧
    spentPartition P u' = [encode P (set_Spent true o)] ∧
    UnspentTreasuryOutput P u' = (None, Some errNoTreasuryOutput) ∧
    ForEachSpentTreasuryOutput P consumer opt u' c
      = (None, (feed consumer [set_Spent true o] c).2).
Proof.
  intros Hvalid Hsp Hs Hun Hspent.
  assert (Hdec1 : decodes (encode P o)) by (unfold decodes; by rewrite decode_encoded).
  split.
  { rewrite UnspentTreasuryOutput_all_decode, Hun; [|done|by rewrite Hun; repeat constructor].
    by rewrite decode_encoded. }
  eexists. split; [by apply Commit_mark_spent|]. cbv zeta. cbn [foldl].
  assert (Ho : set_Spent false o = o) by (destruct o; cbn in *; by subst).
  rewrite Ho.
  set (sk := kvStorableKey P (set_Spent true o)).
  set (uk := kvStorableKey P o).
  set (v := kvStorableValue o).
  set (u' := {| utxoStorage := {| entries := <[sk := v]> (delete uk (entries (utxoStorage u)));
                                  fault := None |} |}).
  assert (Hvalid' : valid (set_Spent true o)) by by apply valid_set_Spent.
  assert (Hne : uk ≠ sk).
  { subst uk sk. rewrite <- Ho at 1. apply kvStorableKey_spent_ne. }
  assert (Hu' : unspentPartition P u' = []).
  { apply elem_of_nil_inv. intros [k w] Hin.
    apply elem_of_partition in Hin as [Hget Hpre]. cbn in Hget, Hpre.
    assert (k ≠ sk).
    { apply (other_flag_key (set_Spent true o) _ _ (proj1 Hvalid') Hpre). done. }
    rewrite lookup_insert_ne in Hget by done.
    destruct (decide (k = uk)) as [->|Hk]; [by rewrite lookup_delete_eq in Hget|].
    rewrite lookup_delete_ne in Hget by done.
    assert (Hold : (k, w) ∈ unspentPartition P u) by by apply elem_of_partition.
    rewrite Hun in Hold. apply list_elem_of_singleton in Hold. by injection Hold. }
  assert (Hs' : spentPartition P u' = [encode P (set_Spent true o)]).
  { apply singleton_elements; [apply NoDup_partition|].
    intros [k w]. split.
    - intros Hin. apply elem_of_partition in Hin as [Hget Hpre]. cbn in Hget, Hpre.
      destruct (decide (k = sk)) as [->|Hk].
      + rewrite lookup_insert_eq in Hget. by injection Hget as <-.
      + rewrite lookup_insert_ne in Hget by done.
        destruct (decide (k = uk)) as [->|Hk']; [by rewrite lookup_delete_eq in Hget|].
        rewrite lookup_delete_ne in Hget by done.
        assert (Hold : (k, w) ∈ spentPartition P u) by by apply elem_of_partition.
        rewrite Hspent in Hold. by apply not_elem_of_nil in Hold.
    - intros ->. apply encode_in_spent; [done..|]. apply lookup_insert_eq. }
  split; [done|]. split; [done|]. split.
  - rewrite UnspentTreasuryOutput_all_decode, Hu'; [done|done|by rewrite Hu'].
  - assert (Hdec : Forall decodes (spentPartition P u')).
    { rewrite Hs'. repeat constructor. unfold decodes. by rewrite decode_encoded. }
    rewrite ForEachSpentTreasuryOutput_healthy by done. cbv zeta.
    rewrite visit_forEach_no_error by done. cbn [fe_innerErr]. f_equal.
    destruct (decide (maxResultCount opt ≤ 0)) as [Hmax|Hmax].
    + destruct (visit_forEach_unbounded opt consumer _
                  {| fe_i := 0; fe_innerErr := None; fe_consumer := c |} Hmax Hdec)
        as [_ ->].
      rewrite Hs'. cbn [decoded fmap list_fmap fe_consumer].
      by rewrite decode_encoded.
    + rewrite visit_forEach_take by (done || lia).
      rewrite Hs'. cbn [fe_i fe_consumer].
      replace (Z.to_nat (maxResultCount opt - 0))
        with (S (Z.to_nat (maxResultCount opt - 1))) by lia.
      cbn [take decoded fmap list_fmap]. rewrite take_nil.
      by rewrite decode_encoded.
Qed.

End Life.

(** ** The order of iteration *)

Section Order.
Import ext.

Lemma to_N_inj (x y : byte) : Byte.to_N x = Byte.to_N y → x = y.
Proof.
  intros H. pose proof (Byte.of_to_N x) as Hx. rewrite H, Byte.of_to_N in Hx.
  congruence.
Qed.

Lemma key_leb_total a b : key_leb a b = true ∨ key_leb b a = true.
Proof.
  revert b. induction a as [|x a IH]; intros [|y b]; cbn [key_leb]; auto.
  destruct (decide (x = y)) as [->|Hxy].
  - destruct (decide (y = y)); [apply IH|done].
  - destruct (decide (y = x)) as [->|_]; [done|].
    rewrite !bool_decide_eq_true.
    assert (Byte.to_N x ≠ Byte.to_N y) by (intros E; by apply to_N_inj in E).
    lia.
Qed.

Lemma key_leb_trans a b c :
  key_leb a b = true → key_leb b c = true → key_leb a c = true.
Proof.
  revert b c. induction a as [|x a IH]; intros [|y b] [|z c]; cbn [key_leb]; try done.
  destruct (decide (x = y)) as [->|Hxy], (decide (y = z)) as [->|Hyz].
  - destruct (decide (z = z)); [apply IH|done].
  - by destruct (decide (y = z)).
  - by destruct (decide (x = z)).
  - rewrite !bool_decide_eq_true. intros H1 H2.
    destruct (decide (x = z)) as [->|Hxz]; [lia|].
    rewrite bool_decide_eq_true. lia.
Qed.

Lemma entry_le_total : Total entry_le.
Proof. intros e1 e2. apply key_leb_total. Qed.

Lemma entry_le_trans : Transitive entry_le.
Proof. intros e1 e2 e3. apply key_leb_trans. Qed.

Lemma ordered_sorted s : StronglySorted entry_le (ordered s).
Proof.
  apply (@Sorted_StronglySorted _ entry_le entry_le_trans).
  apply (@Sorted_merge_sort _ entry_le _ entry_le_total).
Qed.

(** A sorted list splits into the part that satisfies [Q1] followed by
    the part that satisfies [Q2], when no [Q2] element is below a [Q1]
    element. *)
Lemma sorted_filter_split {A} (R : relation A) (Q Q1 Q2 : A → Prop)
    `{∀ x, Decision (Q x)} `{∀ x, Decision (Q1 x)} `{∀ x, Decision (Q2 x)}
    (l : list A) :
  StronglySorted R l →
  (∀ x, x ∈ l → (Q x ↔ Q1 x ∨ Q2 x)) →
  (∀ x, Q1 x → ¬ Q2 x) →
  (∀ x y, Q2 x → Q1 y → ¬ R x y) →
  filter Q l = filter Q1 l ++ filter Q2 l.
Proof.
  intros Hsorted Hq Hdisj Hord.
  induction Hsorted as [|x l Hsorted IH Hx]; [done|].
  assert (IH' : filter Q l = filter Q1 l ++ filter Q2 l).
  { apply IH. intros y Hy. apply Hq. by right. }
  specialize (Hq x ltac:(by left)).
  rewrite !filter_cons.
  destruct (decide (Q1 x)) as [Hq1|Hq1].
  - rewrite decide_True by tauto. rewrite (decide_False (P := Q2 x)) by by apply Hdisj.
    by rewrite IH'.
  - destruct (decide (Q2 x)) as [Hq2|Hq2].
    + rewrite decide_True by tauto.
      assert (Hnone : filter Q1 l = []).
      { apply elem_of_nil_inv. intros y Hy.
        apply list_elem_of_filter in Hy as [Hy1 Hy].
        rewrite Forall_forall in Hx. by apply (Hord x y Hq2 Hy1), Hx. }
      rewrite IH', Hnone. done.
    + rewrite decide_False by tauto. done.
Qed.

Variable P : byte.

(** X17. In a well-formed store the treasury namespace is its unspent
    partition followed by its spent partition (the flag byte follows the
    namespace byte and keys are visited in order), so an unbounded
    [ForEachTreasuryOutput] on a healthy store hands over the unspent
    outputs before the spent ones. *)
Theorem unspent_before_spent {C} (consumer : TreasuryOutputConsumer C)
    (opt : IterateOptions) (c : C) (u : Manager) :
  wellFormed P (content u) →
  treasuryPartition P u = unspentPartition P u ++ spentPartition P u ∧
  (fault (utxoStorage u) = None →
   maxResultCount opt ≤ 0 →
   ForEachTreasuryOutput P consumer opt u c
   = (None, (feed consumer
               (decoded (unspentPartition P u) ++ decoded (spentPartition P u)) c).2)).
Proof.
  intros Hm.
  assert (Hsplit : treasuryPartition P u = unspentPartition P u ++ spentPartition P u).
  { unfold treasuryPartition, unspentPartition, spentPartition, partition.
    apply (sorted_filter_split entry_le); [apply ordered_sorted|..].
    - intros [k v] Hin. cbn [fst].
      unfold ordered in Hin. rewrite merge_sort_Permutation in Hin.
      apply elem_of_map_to_list in Hin. split.
      + intros Hpre. destruct (Hm k v Hin Hpre) as (o & [Hid _] & -> & _).
        rewrite kvStorableKey_eq by done.
        destruct (Spent o); [right|left]; by exists (MilestoneID o).
      + intros [[r ->]|[r ->]]; by eexists.
    - intros [k v] [r1 Hr1] [r2 Hr2]. cbn [fst] in *.
      rewrite Hr1 in Hr2. by injection Hr2.
    - intros [k1 v1] [k2 v2] [r1 Hr1] [r2 Hr2]. cbn [fst] in *. subst.
      unfold entry_le. cbn [fst key_leb app].
      destruct (decide (P = P)); [|done]. by destruct (decide (x01 = x00)). }
  split; [done|]. intros Hs Hmax.
  rewrite ForEachTreasuryOutput_healthy by done. cbv zeta.
  pose proof (wellFormed_decodes P _ u Hm (prefix_treasury P)) as Hdec.
  fold (treasuryPartition P u) in Hdec.
  destruct (visit_forEach_unbounded opt consumer _
              {| fe_i := 0; fe_innerErr := None; fe_consumer := c |} Hmax Hdec)
    as [-> ->].
  cbn [fe_innerErr fe_consumer]. rewrite Hsplit. unfold decoded. by rewrite fmap_app.
Qed.

End Order.

(** ** More on the database lifecycle *)

Section MoreLifecycle.
Import database ext.

(** Unfolds a computation of the plugin on an explicit world. *)
Ltac run_plugin :=
  cbv [RunGarbageCollection closeDatabaseWorker closeDatabases configure
       CleanupDatabases Flush Close MarkDatabaseHealthy Trigger Now
       logInfo logInfof logWarnf logPanic act ask emit advance
       mbind mret M_bind M_ret negb fst snd
       isCorrectDatabaseVersion updateDatabaseVersion flushResult closeResult
       databaseSupportsCleanup cleanupResult cleanupDuration clock trace].

Lemma occurrences_app e tr1 tr2 :
  occurrences e (tr1 ++ tr2) = (occurrences e tr1 + occurrences e tr2)%nat.
Proof. unfold occurrences. by rewrite filter_app, length_app. Qed.

(** X20. [closeDatabases] calls [Flush] first; it calls [Close] only when
    [Flush] succeeded, so a failed flush leaves the store unclosed; it
    returns the first error met, and returns none exactly when both calls
    succeeded. *)
Theorem close_databases_sequence (w : World) :
  (closeDatabases w).1
  = Returned (match flushResult w with Some err => Some err | None => closeResult w end) ∧
  trace (closeDatabases w).2
  = trace w ++ match flushResult w with
               | Some _ => [EvFlush]
               | None => [EvFlush; EvClose]
               end ∧
  ((closeDatabases w).1 = Returned None
   ↔ flushResult w = None ∧ closeResult w = None).
Proof.
  destruct w as [v1 v2 fr cr sup res dur clk tr].
  destruct fr as [e|]; [|destruct cr as [e|]]; run_plugin;
    rewrite <- ?app_assoc; (split; [done|split; [done|]]); split; try done;
    intros [? ?]; done.
Qed.

(** X21. The shutdown worker always returns, never logs at panic level,
    and its effects are, in this order: mark the database healthy, log the
    start, flush, close (only after a successful flush), log "done"; each
    happens at most once. *)
Theorem shutdown_sequence (w : World) :
  (closeDatabaseWorker w).1 = Returned tt ∧
  trace (closeDatabaseWorker w).2
  = trace w
    ++ [EvMarkDatabaseHealthy; EvLog LevelInfo "Syncing databases to disk..." []; EvFlush]
    ++ (if flushResult w is None then [EvClose] else [])
    ++ [EvLog LevelInfo "Syncing databases to disk... done" []] ∧
  logsAt LevelPanic (trace (closeDatabaseWorker w).2) = logsAt LevelPanic (trace w).
Proof.
  destruct (closeDatabaseWorker_trace w) as (w' & Hrun & Htr).
  rewrite Hrun. cbn [fst snd]. rewrite Htr.
  split; [done|]. split; [by destruct (flushResult w)|].
  rewrite !logsAt_app. destruct (flushResult w); cbn; by rewrite app_nil_r.
Qed.

(** X22. [configure] panics with the version-mismatch message, without
    registering the "Close database" worker, exactly when the database
    version is not the expected one and updating it fails; otherwise it
    returns and registers the worker once. *)
Theorem configure_version_gate (w : World) :
  let mismatch := "HORNET database version mismatch. The database scheme was updated. Please delete the database folder and start with a new snapshot." in
  (isCorrectDatabaseVersion w = false ∧ updateDatabaseVersion w = false →
   (configure w).1 = Panicked mismatch ∧
   trace (configure w).2 = trace w ++ [EvLog LevelPanic mismatch []]) ∧
  (isCorrectDatabaseVersion w = true ∨ updateDatabaseVersion w = true →
   (configure w).1 = Returned tt ∧
   trace (configure w).2 = trace w ++ [EvBackgroundWorker "Close database"]).
Proof.
  destruct w as [v1 v2 fr cr sup res dur clk tr]. cbv zeta. cbn [isCorrectDatabaseVersion updateDatabaseVersion].
  split.
  - intros [-> ->]. by run_plugin.
  - intros [->| ->]; [|destruct v1]; by run_plugin.
Qed.

Lemma Truncate_nonneg d :
  0 ≤ d → Truncate d Millisecond = d - d mod 1000000.
Proof.
  intros Hd. unfold Truncate, Millisecond, Nanosecond.
  rewrite decide_False by lia. by rewrite Z.rem_mod_nonneg by lia.
Qed.

(** X23. When the backend supports cleanup, a run of
    [RunGarbageCollection] takes the collection lock once and releases it
    once, as its last effect, on every path; the duration it reports is
    the time the cleanup took rounded down to whole milliseconds; a
    cleanup that returns
    no error or [ErrNothingToCleanUp] is logged as finished at info level
    with no warning, any other error as a warning. *)
Theorem garbage_collection_lock_and_report (w : World) :
  databaseSupportsCleanup w = true →
  let w' := (RunGarbageCollection w).2 in
  let took := ArgDuration (cleanupDuration w - cleanupDuration w mod 1000000) in
  occurrences EvLock (trace w') = S (occurrences EvLock (trace w)) ∧
  occurrences EvUnlock (trace w') = S (occurrences EvUnlock (trace w)) ∧
  last (trace w') = Some EvUnlock ∧
  (0 ≤ cleanupDuration w ≤ maxDuration →
   (cleanupResult w = None ∨ cleanupResult w = Some ErrNothingToCleanUp →
    logsAt LevelWarn (trace w') = logsAt LevelWarn (trace w) ∧
    logsAt LevelInfo (trace w')
    = logsAt LevelInfo (trace w)
      ++ [("running full database garbage collection. This can take a while...", []);
          ("full database garbage collection finished. took %v", [took])]) ∧
   (∀ err, cleanupResult w = Some err → err ≠ ErrNothingToCleanUp →
      logsAt LevelWarn (trace w')
      = logsAt LevelWarn (trace w)
        ++ [("full database garbage collection failed with error: %s. took: %v",
             [ArgError err; took])])).
Proof.
  intros Hsup. cbv zeta.
  destruct (RunGarbageCollection_supported w Hsup) as [_ Htr].
  rewrite Htr, !occurrences_app, !logsAt_app.
  split; [|split; [|split]].
  - unfold collectionTrace, occurrences at 2.
    destruct (cleanupResult w) as [err|]; [destruct (decide (err ≠ _))|];
      rewrite !filter_cons, filter_nil;
      repeat first [rewrite decide_True by done | rewrite decide_False by done];
      cbn [length]; lia.
  - unfold collectionTrace, occurrences at 2.
    destruct (cleanupResult w) as [err|]; [destruct (decide (err ≠ _))|];
      rewrite !filter_cons, filter_nil;
      repeat first [rewrite decide_True by done | rewrite decide_False by done];
      cbn [length]; lia.
  - unfold collectionTrace.
    change ([?a; ?b; ?c; ?d; ?e; ?f; ?g]) with ([a; b; c; d; e; f] ++ [g]).
    rewrite app_assoc. apply last_snoc.
  - intros Hdur.
    assert (Htook : Truncate (Sub (clock w + cleanupDuration w) (clock w)) Millisecond
                    = cleanupDuration w - cleanupDuration w mod 1000000).
    { rewrite <- Truncate_nonneg by lia. f_equal.
      unfold Sub, minDuration, maxDuration in *. repeat case_decide; lia. }
    unfold collectionTrace. cbv zeta. rewrite Htook.
    split.
    + intros [->| ->]; [|rewrite decide_False by (intros Hne; by apply Hne)];
        cbn [logsAt omap list_omap]; repeat case_decide; try done;
        by rewrite ?app_nil_r.
    + intros err -> Hne. rewrite decide_True by done.
      cbn [logsAt omap list_omap]; repeat case_decide; try done;
        by rewrite ?app_nil_r.
Qed.

End MoreLifecycle.

(** ** More on node health *)

Section MoreHealth.
Import tangle.

(** X24. [IsNodeHealthy] looks only at the sync flag, the number of
    connected peers of the known relation, the milestone cached for the
    latest index, and the clock.  With the rest fixed, health is only lost
    as the clock advances.  For a synced node with a known peer, a
    milestone stamped at or after the current time counts as healthy, and
    one stamped five minutes ago or more does not. *)
Theorem node_health_frame_and_time (deps deps' : Deps) :
  IsNodeSyncedWithThreshold deps' = IsNodeSyncedWithThreshold deps →
  ConnectedCount deps' PeerRelationKnown = ConnectedCount deps PeerRelationKnown →
  GetLatestMilestoneIndex deps' = GetLatestMilestoneIndex deps →
  GetCachedMilestoneOrNil deps' (GetLatestMilestoneIndex deps)
  = GetCachedMilestoneOrNil deps (GetLatestMilestoneIndex deps) →
  (now deps' = now deps → IsNodeHealthy deps' = IsNodeHealthy deps) ∧
  (now deps ≤ now deps' → IsNodeHealthy deps' = true → IsNodeHealthy deps = true) ∧
  (∀ m, GetCachedMilestoneOrNil deps (GetLatestMilestoneIndex deps) = Some m →
        IsNodeSyncedWithThreshold deps = true →
        ConnectedCount deps PeerRelationKnown ≠ 0%nat →
        (now deps ≤ Timestamp m → IsNodeHealthy deps = true) ∧
        (Timestamp m + 5 * Minute ≤ now deps → IsNodeHealthy deps = false)).
Proof.
  intros Hsync Hcount Hindex Hcached. split; [|split].
  - intros Hnow. unfold IsNodeHealthy.
    by rewrite Hsync, Hcount, Hindex, Hcached, Hnow.
  - intros Hnow. rewrite !IsNodeHealthy_unfold.
    rewrite Hsync, Hcount, Hindex, Hcached.
    intros (? & ? & m & ? & ?). split; [done|]. split; [done|].
    exists m. split; [done|]. lia.
  - intros m Hm Hs Hc. split; intros Hts.
    + apply IsNodeHealthy_unfold. split; [done|]. split; [lia|].
      exists m. split; [done|]. unfold Minute, Second, Millisecond, Nanosecond. lia.
    + apply not_true_is_false. rewrite IsNodeHealthy_unfold.
      intros (_ & _ & m' & Hm' & Hage). rewrite Hm in Hm'. injection Hm' as <-. lia.
Qed.

End MoreHealth.

(** ** Examples *)

Section Examples.
Import ext.

Lemma valid_sample spent : valid (sampleOutput spent).
Proof. split; [reflexivity | split; [discriminate | reflexivity]]. Qed.

Lemma wellFormed_oneUnspent : wellFormed samplePrefix (content oneUnspent).
Proof.
  apply (wellFormed_encoded samplePrefix ∅ (sampleOutput false));
    [apply wellFormed_empty | apply valid_sample].
Qed.

Lemma wellFormed_twoOutputs : wellFormed samplePrefix (content twoOutputs).
Proof.
  apply (wellFormed_encoded samplePrefix _ (sampleOutput false));
    [|apply valid_sample].
  apply (wellFormed_encoded samplePrefix ∅ (sampleOutput true));
    [apply wellFormed_empty | apply valid_sample].
Qed.

End Examples.

Lemma key_layout_witness :
  length (kvStorableKey samplePrefix (sampleOutput false)) = 34%nat.
Proof.
  exact (proj1 (key_layout samplePrefix samplePrefix (sampleOutput false)
                  (sampleOutput true) eq_refl eq_refl)).
Defined.

Lemma load_checks_lengths_witness :
  kvStorableLoad zero [samplePrefix] [] = (zero, Some (ErrReadCapacity 2 1)).
Proof.
  refine (proj1 (proj2 (load_checks_lengths zero [samplePrefix] [])) _).
  cbn. lia.
Defined.

Lemma load_gives_valid_record_witness :
  valid (kvStorableLoad zero (kvStorableKey samplePrefix (sampleOutput true))
           (kvStorableValue (sampleOutput true))).1.
Proof.
  refine (proj1 (load_gives_valid_record zero
                   (kvStorableKey samplePrefix (sampleOutput true))
                   (kvStorableValue (sampleOutput true)) _ _)).
  - reflexivity.
  - reflexivity.
Defined.

Lemma load_then_encode_witness :
  kvStorableKey samplePrefix
    (kvStorableLoad zero (samplePrefix :: x01 :: sampleID)
       (kvStorableValue (sampleOutput true))).1
  = samplePrefix :: x01 :: sampleID.
Proof.
  refine (proj1 (proj2 (load_then_encode samplePrefix zero true sampleID
                          (kvStorableValue (sampleOutput true)) _ _ _))).
  - reflexivity.
  - reflexivity.
  - reflexivity.
Defined.

Lemma load_short_value_overwrites_witness :
  kvStorableLoad zero (kvStorableKey samplePrefix (sampleOutput true)) [x01]
  = ({| MilestoneID := sampleID; Amount := 0; Spent := false |},
     Some (ErrReadCapacity 8 1)).
Proof.
  refine (load_short_value_overwrites zero
            (kvStorableKey samplePrefix (sampleOutput true)) [x01] _ _ _).
  - reflexivity.
  - cbn. lia.
  - cbn. lia.
Defined.

Lemma add_then_read_witness :
  ext.readOwn samplePrefix false
    (AddTreasuryOutput samplePrefix (sampleOutput false) (storeOf [])).2 sampleID
  = (Some (sampleOutput false), None).
Proof.
  refine (proj1 (proj2 (proj2 (add_then_read samplePrefix (sampleOutput false)
                                 (storeOf []) _ _)))).
  - split; [reflexivity | split; [discriminate | reflexivity]].
  - reflexivity.
Defined.

Lemma delete_then_read_witness :
  ext.readOwn samplePrefix false
    (DeleteTreasuryOutput samplePrefix (sampleOutput false) ext.oneUnspent).2 sampleID
  = (None, Some ext.errKeyNotFound).
Proof.
  refine (proj1 (proj2 (proj2 (delete_then_read samplePrefix (sampleOutput false)
                                 ext.oneUnspent _ _)))).
  - reflexivity.
  - reflexivity.
Defined.

Lemma read_outcomes_witness :
  match ext.content ext.oneUnspent !! (samplePrefix :: x01 :: sampleID) with
  | None => ext.readOwn samplePrefix true ext.oneUnspent sampleID
            = (None, Some ext.errKeyNotFound)
  | Some _ => True
  end.
Proof.
  pose proof (read_outcomes samplePrefix true ext.oneUnspent sampleID eq_refl) as H.
  cbv zeta in H.
  destruct (ext.content ext.oneUnspent !! (samplePrefix :: x01 :: sampleID));
    [exact I | exact H].
Defined.

Lemma batch_agrees_with_direct_witness :
  Commit (storeTreasuryOutput samplePrefix (sampleOutput false) []).2
    (utxoStorage (storeOf []))
  = (None, utxoStorage (AddTreasuryOutput samplePrefix (sampleOutput false)
                          (storeOf [])).2).
Proof.
  refine (proj1 (proj2 (proj2 (batch_agrees_with_direct samplePrefix
                                 (sampleOutput false) (storeOf []) _)))).
  reflexivity.
Defined.

Lemma mark_then_read_witness :
  ∃ s',
    Commit (markTreasuryOutputAsSpent samplePrefix (sampleOutput false) []).2.2
      (utxoStorage ext.oneUnspent) = (None, s') ∧
    let u' := {| utxoStorage := s' |} in
    readUnspentTreasuryOutputWithoutLocking samplePrefix u' sampleID
      = (None, Some ext.errKeyNotFound) ∧
    readSpentTreasuryOutputWithoutLocking samplePrefix u' sampleID
      = (Some (sampleOutput true), None).
Proof.
  refine (proj1 (mark_then_read samplePrefix (sampleOutput false) []
                   ext.oneUnspent _ _)).
  - split; [reflexivity | split; [discriminate | reflexivity]].
  - reflexivity.
Defined.

Lemma mark_spent_then_unspent_restores_witness :
  let s := utxoStorage ext.oneUnspent in
  let spend := (markTreasuryOutputAsSpent samplePrefix (sampleOutput false)
                  ([] : list Mutation)).2.2 in
  Commit (markTreasuryOutputAsUnspent samplePrefix (sampleOutput false) spend).2.2 s
  = (None, s).
Proof.
  intros s spend.
  refine (proj1 (mark_spent_then_unspent_restores samplePrefix (sampleOutput false)
                   s _ _ _)).
  - reflexivity.
  - vm_compute. reflexivity.
  - vm_compute. reflexivity.
Defined.

Lemma well_formed_preserved_witness :
  ext.wellFormed samplePrefix
    (ext.content (AddTreasuryOutput samplePrefix (sampleOutput true) ext.oneUnspent).2).
Proof.
  refine (proj1 (well_formed_preserved samplePrefix (sampleOutput true)
                   ext.oneUnspent _ _ _)).
  - split; [reflexivity | split; [discriminate | reflexivity]].
  - reflexivity.
  - exact wellFormed_oneUnspent.
Defined.

Lemma well_formed_never_fails_to_decode_witness :
  (ForEachTreasuryOutput samplePrefix (recording greedy) unbounded ext.twoOutputs
     (tt, [])).1 = None.
Proof.
  refine (proj1 (well_formed_never_fails_to_decode samplePrefix (recording greedy)
                   unbounded ext.twoOutputs (tt, []) _ _)).
  - reflexivity.
  - exact wellFormed_twoOutputs.
Defined.

Lemma add_unspent_then_query_witness :
  UnspentTreasuryOutput samplePrefix
    (AddTreasuryOutput samplePrefix (sampleOutput false) (storeOf [])).2
  = (Some (sampleOutput false), None).
Proof.
  refine (proj1 (add_unspent_then_query samplePrefix (sampleOutput false)
                   (storeOf []) _ _ _) _).
  - split; [reflexivity | split; [discriminate | reflexivity]].
  - reflexivity.
  - reflexivity.
  - assert (Hempty : unspentPartition samplePrefix (storeOf []) = [])
      by (vm_compute; reflexivity).
    rewrite Hempty. intros kv Hin. by apply not_elem_of_nil in Hin.
Defined.

Lemma spend_the_treasury_output_witness :
  ∃ s',
    Commit (markTreasuryOutputAsSpent samplePrefix (sampleOutput false) []).2.2
      (utxoStorage ext.oneUnspent) = (None, s') ∧
    UnspentTreasuryOutput samplePrefix {| utxoStorage := s' |}
      = (None, Some errNoTreasuryOutput).
Proof.
  assert (Hvalid : valid (sampleOutput false))
    by (split; [reflexivity | split; [discriminate | reflexivity]]).
  assert (Hun : unspentPartition samplePrefix ext.oneUnspent
                = [ext.encode samplePrefix (sampleOutput false)])
    by (vm_compute; reflexivity).
  assert (Hsp : spentPartition samplePrefix ext.oneUnspent = [])
    by (vm_compute; reflexivity).
  pose proof (proj2 (spend_the_treasury_output samplePrefix greedy unbounded tt
                       (sampleOutput false) ext.oneUnspent
                       Hvalid eq_refl eq_refl Hun Hsp)) as H.
  destruct H as (s' & Hcommit & H).
  exists s'. split; [exact Hcommit | exact (proj1 (proj2 (proj2 H)))].
Defined.

Lemma positive_bound_feeds_first_records_witness :
  ForEachTreasuryOutput samplePrefix (recording greedy)
    {| readLockLedger := false; maxResultCount := 1 |} ext.twoOutputs (tt, [])
  = (None, (tt, [sampleOutput false])).
Proof.
  assert (Hpart : treasuryPartition samplePrefix ext.twoOutputs
                  = [recordOf (sampleOutput false); recordOf (sampleOutput true)])
    by (vm_compute; reflexivity).
  assert (Hdec : Forall decodes (treasuryPartition samplePrefix ext.twoOutputs)).
  { rewrite Hpart. repeat constructor. }
  pose proof (proj1 (positive_bound_feeds_first_records samplePrefix (recording greedy)
                       {| readLockLedger := false; maxResultCount := 1 |}
                       ext.twoOutputs (tt, []) eq_refl eq_refl) Hdec) as H.
  rewrite H, Hpart. vm_compute. reflexivity.
Defined.

Lemma unspent_before_spent_witness :
  treasuryPartition samplePrefix ext.twoOutputs
  = unspentPartition samplePrefix ext.twoOutputs
    ++ spentPartition samplePrefix ext.twoOutputs.
Proof.
  exact (proj1 (unspent_before_spent samplePrefix greedy unbounded tt ext.twoOutputs
                  wellFormed_twoOutputs)).
Defined.


Lemma fed_outputs_are_stored_witness :
  NoDup (ForEachSpentTreasuryOutput samplePrefix (recording greedy) unbounded
           ext.twoOutputs (tt, [])).2.2.
Proof.
  exact (proj1 (proj2 (fed_outputs_are_stored samplePrefix greedy unbounded
                         ext.twoOutputs tt eq_refl wellFormed_twoOutputs))).
Defined.

Lemma configure_version_gate_witness :
  (database.configure (database.sampleWorld None None false)).1
  = database.Returned tt.
Proof.
  exact (proj1 (proj2 (configure_version_gate (database.sampleWorld None None false))
                  (or_introl eq_refl))).
Defined.

Lemma garbage_collection_lock_and_report_witness :
  last (database.trace
          (database.RunGarbageCollection (database.sampleWorld None None true)).2)
  = Some database.EvUnlock.
Proof.
  exact (proj1 (proj2 (proj2
           (garbage_collection_lock_and_report (database.sampleWorld None None true)
              eq_refl)))).
Defined.

Lemma node_health_frame_and_time_witness :
  tangle.IsNodeHealthy (ext.sampleDeps (5 * Minute)) = false.
Proof.
  refine (proj2 (proj2 (proj2 (node_health_frame_and_time
            (ext.sampleDeps (5 * Minute)) (ext.sampleDeps (5 * Minute))
            eq_refl eq_refl eq_refl eq_refl))
            (tangle.mkMilestone 7 0) eq_refl eq_refl _) _).
  - discriminate.
  - cbn. lia.
Defined.
